(** * go-sse: the event wire format, its reader, and the reconnecting event source

    A shallow embedding of [sse/event.go], [sse/reader.go] and
    [sse/event_source.go].  Go strings are byte sequences and are modelled
    by [string]; a [[]byte] is the [list byte] of its contents, an empty
    slice and [nil] being the same list; [time.Duration] is a count of
    nanoseconds in [Z]. *)

From Stdlib Require Import Strings.String Strings.Ascii Strings.Byte List ZArith Lia Bool Arith.
Import ListNotations.

Local Open Scope list_scope.
Local Open Scope string_scope.

(** ** Strings and byte slices *)

Definition LF : ascii := "010"%char.
Definition CR : ascii := "013"%char.

(** The one-character string ["\n"]. *)
Definition nl : string := String LF "".

(** The byte ['\n']. *)
Definition bLF : byte := byte_of_ascii LF.

(** [s[lo:hi]] on strings. *)
Definition slice (s : string) (lo hi : nat) : string := substring lo (hi - lo) s.

(** [[]byte(s)] and [string(b)]. *)
Definition bytes (s : string) : list byte := list_byte_of_string s.
Definition str (b : list byte) : string := string_of_list_byte b.

(** [bytes.Split(s, sep)] for a separator of one byte: the pieces of [s]
    between the occurrences of [sep]; there is always one piece more than
    there are separators. *)
Fixpoint bytes_Split (s : list byte) (sep : byte) : list (list byte) :=
  match s with
  | [] => [[]]
  | b :: s' =>
      if Byte.eqb b sep then [] :: bytes_Split s' sep
      else match bytes_Split s' sep with
           | frag :: frags => (b :: frag) :: frags
           | [] => [[b]]
           end
  end.

(** The first occurrence of [sep] in [s]: what is before it and what is
    after it. *)
Fixpoint cut (s : string) (sep : ascii) : option (string * string) :=
  match s with
  | "" => None
  | String c s' =>
      if Ascii.eqb c sep then Some ("", s')
      else match cut s' sep with
           | Some (before, after) => Some (String c before, after)
           | None => None
           end
  end.

(** [strings.SplitN(s, sep, 2)] for a separator of one character. *)
Definition strings_SplitN2 (s : string) (sep : ascii) : list string :=
  match cut s sep with
  | Some (before, after) => [before; after]
  | None => [s]
  end.

(** [s[i] == c], for an index [i] in range. *)
Definition at_is (s : string) (i : nat) (c : ascii) : bool :=
  match get i s with
  | Some c' => Ascii.eqb c' c
  | None => false
  end.

(** ** event.go *)

Record Event : Type := mkEvent {
  ID : string;
  Name : string;
  Data : list byte
}.

(** The zero value [Event{}]. *)
Definition Event0 : Event := mkEvent "" "" [].

(** The body of the [for ... range] loop of [Encode]. *)
Definition encode_line (enc : string) (line : list byte) : string :=
  if Nat.eqb (List.length line) 0 then enc ++ "data" ++ nl
  else enc ++ ("data: " ++ str line ++ nl).

Definition Encode (event : Event) : string :=
  let enc := "id: " ++ ID event ++ nl ++ "event: " ++ Name event ++ nl in
  let enc := fold_left encode_line (bytes_Split (Data event) bLF) enc in
  enc ++ nl.

(** *** Event.Write

    The destination is an [io.Writer].  It is modelled by what it has
    accepted so far and by the faults it will raise: the n-th entry of
    [faults] decides the n-th call of its [Write], and once the list is
    used up every call succeeds.  A failing call accepts nothing. *)

Inductive io_error : Type :=
| io_EOF
| io_failure (msg : string).

Record Writer : Type := mkWriter {
  written : string;
  faults : list (option io_error)
}.

(** [fmt.Fprintf(destination, ...)] once the text is formatted: one call of
    the destination's [Write]. *)
Definition Fprintf (destination : Writer) (text : string) : Writer * option io_error :=
  match faults destination with
  | Some err :: later => (mkWriter (written destination) later, Some err)
  | None :: later => (mkWriter (written destination ++ text) later, None)
  | [] => (mkWriter (written destination ++ text) [], None)
  end.

(** The [for ... range] loop of [Write]; it returns at the first error. *)
Fixpoint write_lines (destination : Writer) (lines : list (list byte))
  : Writer * option io_error :=
  match lines with
  | [] => (destination, None)
  | line :: lines' =>
      let (destination, err) :=
        if Nat.eqb (List.length line) 0 then Fprintf destination ("data" ++ nl)
        else Fprintf destination ("data: " ++ str line ++ nl) in
      match err with
      | Some e => (destination, Some e)
      | None => write_lines destination lines'
      end
  end.

Definition Write (event : Event) (destination : Writer) : Writer * option io_error :=
  let (destination, err) := Fprintf destination ("id: " ++ ID event ++ nl) in
  match err with
  | Some e => (destination, Some e)
  | None =>
      let (destination, err) := Fprintf destination ("event: " ++ Name event ++ nl) in
      match err with
      | Some e => (destination, Some e)
      | None =>
          let (destination, err) :=
            write_lines destination (bytes_Split (Data event) bLF) in
          match err with
          | Some e => (destination, Some e)
          | None => Fprintf destination nl
          end
      end
  end.

(** ** reader.go *)

(** A [bufio.Reader] over a source: the bytes the source still delivers,
    and the error it reports once they are used up ([io.EOF] for a source
    that ends). *)
Record bufio_Reader : Type := mkBuf {
  pending : string;
  fault : io_error
}.

Record Reader : Type := mkReader {
  lastID : string;
  buf : bufio_Reader
}.

Definition NewReader (source : bufio_Reader) : Reader := mkReader "" source.

(** [buf.ReadString(delim)]: the bytes up to and including the first
    [delim]; when the source fails first, what was read and the error. *)
Definition ReadString (b : bufio_Reader) (delim : ascii)
  : (string * option io_error) * bufio_Reader :=
  match cut (pending b) delim with
  | Some (before, after) => ((before ++ String delim "", None), mkBuf after (fault b))
  | None => ((pending b, Some (fault b)), mkBuf "" (fault b))
  end.

(** Lines 70-86 of [Next]: the field and the value of a line. *)
Definition field_value (line : string) : string * string :=
  let segments := strings_SplitN2 line ":"%char in
  let '(field, value) :=
    match segments with
    | [f] => (f, "")
    | f :: v :: _ => (f, v)
    | [] => ("", "")
    end in
  let value :=
    if Nat.ltb 0 (String.length value) then
      if at_is value 0 " " then slice value 1 (String.length value) else value
    else value in
  (field, value).

(** Lines 88-96 of [Next]: the [switch] on the field. *)
Definition set_field (field value : string) (event : Event) (idPresent : bool)
  : Event * bool :=
  if String.eqb field "id" then
    (mkEvent value (Name event) (Data event), true)
  else if String.eqb field "event" then
    (mkEvent (ID event) value (Data event), idPresent)
  else if String.eqb field "data" then
    (mkEvent (ID event) (Name event) (Data event ++ bytes (value ++ nl))%list, idPresent)
  else (event, idPresent).

(** The [for] loop of [Next].  Every turn that goes on has read at least
    one byte, so the loop is run on a count [fuel] of turns; [None] is a
    count that ran out. *)
Fixpoint Next_loop (fuel : nat) (reader : Reader) (event : Event) (idPresent : bool)
  : option ((Event * option io_error) * Reader) :=
  match fuel with
  | O => None
  | S fuel' =>
      let '((line, err), b) := ReadString (buf reader) LF in
      let reader := mkReader (lastID reader) b in
      match err with
      | Some e => Some ((Event0, Some e), reader)
      | None =>
          let line := slice line 0 (String.length line - 1) in
          if Nat.eqb (String.length line) 0 then
            if Nat.eqb (List.length (Data event)) 0 then
              Next_loop fuel' reader event idPresent
            else
              let reader :=
                if idPresent then mkReader (ID event) (buf reader) else reader in
              let event :=
                mkEvent (ID event) (Name event)
                        (firstn (List.length (Data event) - 1) (Data event)) in
              Some ((event, None), reader)
          else
            if at_is line 0 ":" then Next_loop fuel' reader event idPresent
            else
              let (field, value) := field_value line in
              let (event, idPresent) := set_field field value event idPresent in
              Next_loop fuel' reader event idPresent
      end
  end.

(** [reader.Next()].  The count of turns is the number of unread bytes
    plus one, which [Next_total] shows is always enough. *)
Definition Next (reader : Reader) : option ((Event * option io_error) * Reader) :=
  Next_loop (S (String.length (pending (buf reader)))) reader
            (mkEvent (lastID reader) "" []) false.

(** A stream given line by line: every line is followed by a line feed. *)
Definition wire (lines : list string) : string :=
  fold_right (fun l s => l ++ nl ++ s) "" lines.

(** A reader whose source holds [s] and then ends. *)
Definition reading (last : string) (s : string) : Reader :=
  mkReader last (mkBuf s io_EOF).


(** ** event_source.go

    The event source is used by one goroutine at a time here, so its two locks
    do not appear.  What lies outside it is a [World]: the answers that
    [Client.Do] will give to the requests to come, in order, and the trace
    of what the source has done to the outside so far. *)

Module Session.

(** Modelled from the spec: the declaration of [Event] that
    [event_source.go] is built with.  It has, besides the fields of the
    declaration in [event.go], the retry interval [Retry] of the event, a
    [time.Duration] that is zero when the event has no retry directive. *)
Record Event : Type := mkEvent {
  ID : string;
  Name : string;
  Data : list byte;
  Retry : Z
}.

Definition Event0 : Event := mkEvent "" "" [] 0.

(** [time.Second], in nanoseconds. *)
Definition time_Second : Z := 1000000000.

(** The status codes of [net/http] that [Connect] names. *)
Definition StatusOK : Z := 200.
Definition StatusInternalServerError : Z := 500.
Definition StatusBadGateway : Z := 502.
Definition StatusServiceUnavailable : Z := 503.
Definition StatusGatewayTimeout : Z := 504.

(** Modelled from the spec: [ReadCloser], the open transport body with
    its parser, whose declaration is not part of these sources.  It is
    given by what its [Next] will return, call after call, and by what
    its [Close] returns.  [Dispatched] is an event; [Failed] is an error
    of the parser or of the transport; [Cancelled] is a read during which
    another goroutine calls [Close] on the source, and that fails for it.  Past
    the last entry the body has ended: [Next] returns [io.EOF]. *)
Inductive reading : Type :=
| Dispatched (event : Event)
| Failed (err : io_error)
| Cancelled (err : io_error).

Record ReadCloser : Type := mkReadCloser {
  readings : list reading;
  closeErr : option io_error
}.

Record Response : Type := mkResponse {
  StatusCode : Z;
  Body : ReadCloser
}.

Definition NewReadCloser (body : ReadCloser) : ReadCloser := body.

(** The errors the source returns: those of the transport, the sentinel
    [ErrReadFromClosedSource], and [BadResponseError]. *)
Inductive error : Type :=
| io (err : io_error)
| ErrReadFromClosedSource
| BadResponseError (Response : Response).

(** What [Client.Do] gives for one request: an error, or a response. *)
Inductive attempt : Type :=
| Unreachable
| Responds (res : Response).

(** What the source does to the outside: a request sent with its
    [Last-Event-ID] header, a body closed, a sleep. *)
Inductive action : Type :=
| Do (lastEventID : string)
| BodyClose
| Sleep (d : Z).

Record World : Type := mkWorld {
  script : list attempt;
  trace : list action
}.

Definition act (a : action) (w : World) : World :=
  mkWorld (script w) (trace w ++ [a]).

Record EventSource : Type := mkSource {
  DefaultRetryInterval : Z;
  currentReadCloser : option ReadCloser;
  lastEventID : string;
  retryInterval : Z;
  closed : bool
}.

(** The field updates of the methods. *)
Definition set_currentReadCloser (rc : option ReadCloser) (source : EventSource) :=
  mkSource (DefaultRetryInterval source) rc (lastEventID source)
           (retryInterval source) (closed source).
Definition set_lastEventID (id : string) (source : EventSource) :=
  mkSource (DefaultRetryInterval source) (currentReadCloser source) id
           (retryInterval source) (closed source).
Definition set_retryInterval (d : Z) (source : EventSource) :=
  mkSource (DefaultRetryInterval source) (currentReadCloser source) (lastEventID source)
           d (closed source).
Definition set_closed (c : bool) (source : EventSource) :=
  mkSource (DefaultRetryInterval source) (currentReadCloser source) (lastEventID source)
           (retryInterval source) c.

Definition waitForRetry (source : EventSource) (w : World) : World :=
  if negb (Z.eqb (retryInterval source) 0) then act (Sleep (retryInterval source)) w
  else if negb (Z.eqb (DefaultRetryInterval source) 0) then
    act (Sleep (DefaultRetryInterval source)) w
  else act (Sleep time_Second) w.

Definition Close (source : EventSource) (w : World)
  : option error * EventSource * World :=
  let source := set_closed true source in
  match currentReadCloser source with
  | Some rc =>
      let w := act BodyClose w in
      match closeErr rc with
      | Some err => (Some (io err), set_currentReadCloser None source, w)
      | None => (None, set_currentReadCloser None source, w)
      end
  | None => (None, set_currentReadCloser None source, w)
  end.

(** The [for] loop of [Connect]: one turn for each answer of the client.
    [None] is a script that ends while the loop still retries. *)
Fixpoint Connect_loop (answers : list attempt) (source : EventSource)
         (done : list action) : option (option error * EventSource * World) :=
  match answers with
  | [] => None
  | answer :: answers' =>
      let w := act (Do (lastEventID source)) (mkWorld answers' done) in
      match answer with
      | Unreachable =>
          let w := waitForRetry source w in
          Connect_loop answers' source (trace w)
      | Responds res =>
          if Z.eqb (StatusCode res) StatusOK then
            let source := set_currentReadCloser (Some (NewReadCloser (Body res))) source in
            let source := set_closed false source in
            Some (None, source, w)
          else if Z.eqb (StatusCode res) StatusInternalServerError
                  || Z.eqb (StatusCode res) StatusBadGateway
                  || Z.eqb (StatusCode res) StatusServiceUnavailable
                  || Z.eqb (StatusCode res) StatusGatewayTimeout then
            let w := act BodyClose w in
            let w := waitForRetry source w in
            Connect_loop answers' source (trace w)
          else
            let w := act BodyClose w in
            Some (Some (BadResponseError res), source, w)
      end
  end.

Definition Connect (source : EventSource) (w : World)
  : option (option error * EventSource * World) :=
  match currentReadCloser source with
  | Some _ => Some (None, source, w)
  | None => Connect_loop (script w) source (trace w)
  end.

(** [source.currentReadCloser.Next()], for the stream [rc] the source
    holds. *)
Definition read (rc : ReadCloser) (source : EventSource) (w : World)
  : (Event * option io_error) * EventSource * World :=
  match readings rc with
  | [] => ((Event0, Some io_EOF), source, w)
  | Dispatched event :: later =>
      ((event, None),
       set_currentReadCloser (Some (mkReadCloser later (closeErr rc))) source, w)
  | Failed err :: later =>
      ((Event0, Some err),
       set_currentReadCloser (Some (mkReadCloser later (closeErr rc))) source, w)
  | Cancelled err :: later =>
      let '(_, source, w) :=
        Close (set_currentReadCloser (Some (mkReadCloser later (closeErr rc))) source) w in
      ((Event0, Some err), source, w)
  end.

(** The [for] loop of [Next], on a count [fuel] of turns.  [None] is a
    script that ends while the source still retries, or a count that ran
    out, or the [nil] stream that the loop would read from. *)
Fixpoint Next_loop (fuel : nat) (source : EventSource) (w : World)
  : option ((Event * option error) * EventSource * World) :=
  match fuel with
  | O => None
  | S fuel' =>
      match Connect source w with
      | None => None
      | Some (Some err, source, w) => Some ((Event0, Some err), source, w)
      | Some (None, source, w) =>
          match currentReadCloser source with
          | None => None
          | Some rc =>
              let '((event, err), source, w) := read rc source w in
              match err with
              | None =>
                  let source := set_lastEventID (ID event) source in
                  let source :=
                    if negb (Z.eqb (Retry event) 0)
                    then set_retryInterval (Retry event) source else source in
                  Some ((event, None), source, w)
              | Some io_EOF =>
                  let '(_, source, w) := Close source w in
                  Some ((Event0, Some (io io_EOF)), source, w)
              | Some _ =>
                  if closed source then
                    Some ((Event0, Some ErrReadFromClosedSource), source, w)
                  else
                    let source := set_currentReadCloser None source in
                    let w := waitForRetry source w in
                    Next_loop fuel' source w
              end
          end
      end
  end.

(** [source.Next()].  Every turn of the loop but the first uses up an
    answer of the script, so one turn more than the script has answers is
    enough. *)
Definition Next (source : EventSource) (w : World)
  : option ((Event * option error) * EventSource * World) :=
  if closed source then Some ((Event0, Some ErrReadFromClosedSource), source, w)
  else Next_loop (S (List.length (script w))) source w.

(** *** The source as a state machine *)

(** The calls that can be made on the source. *)
Inductive call : Type :=
| CallConnect
| CallNext
| CallClose.

(** One call: what it returns, with [Event0] for the event of [Connect]
    and [Close], and the source and the world after it. *)
Definition perform (c : call) (source : EventSource) (w : World)
  : option ((Event * option error) * EventSource * World) :=
  match c with
  | CallConnect =>
      match Connect source w with
      | Some (err, source, w) => Some ((Event0, err), source, w)
      | None => None
      end
  | CallNext => Next source w
  | CallClose =>
      let '(err, source, w) := Close source w in Some ((Event0, err), source, w)
  end.

(** Calls in a row. *)
Fixpoint perform_all (cs : list call) (source : EventSource) (w : World)
  : option (list (Event * option error) * EventSource * World) :=
  match cs with
  | [] => Some ([], source, w)
  | c :: cs' =>
      match perform c source w with
      | Some (res, source, w) =>
          match perform_all cs' source w with
          | Some (more, source, w) => Some (res :: more, source, w)
          | None => None
          end
      | None => None
      end
  end.

(** The zero value of the source, with its configured interval. *)
Definition new_source (default : Z) : EventSource := mkSource default None "" 0 false.

(** A stream is held only while the source is not closed. *)
Definition invariant (source : EventSource) : Prop :=
  closed source = true -> currentReadCloser source = None.

(** The interval of a wait, from the retry directive in force (zero when
    there is none) and the configured interval. *)
Definition backoff (directive default : Z) : Z :=
  if Z.eqb directive 0 then
    if Z.eqb default 0 then time_Second else default
  else directive.

(** The retry directive in force after the events [events] were returned:
    that of the last of them that has one. *)
Definition directive_after (events : list Event) (d0 : Z) : Z :=
  fold_left (fun d event => if Z.eqb (Retry event) 0 then d else Retry event) events d0.

(** The sleeps of a trace. *)
Definition sleeps (t : list action) : list Z :=
  flat_map (fun a => match a with Sleep d => [d] | _ => [] end) t.

(** The event a call hands to the caller, when it does. *)
Definition returned_event (c : call) (res : Event * option error) : list Event :=
  match c, snd res with
  | CallNext, None => [fst res]
  | _, _ => []
  end.

(** The four statuses after which [Connect] tries again. *)
Definition retryable (status : Z) : bool :=
  Z.eqb status 500 || Z.eqb status 502 || Z.eqb status 503 || Z.eqb status 504.

(** What a call of [Connect] that goes round the loop can come to. *)
Inductive connected (source : EventSource) : option error -> EventSource -> Prop :=
| connected_ok (res : Response) :
    StatusCode res = StatusOK ->
    connected source None
              (mkSource (DefaultRetryInterval source) (Some (NewReadCloser (Body res)))
                        (lastEventID source) (retryInterval source) false)
| connected_bad (res : Response) :
    StatusCode res <> StatusOK ->
    retryable (StatusCode res) = false ->
    connected source (Some (BadResponseError res)) source.

(** From [w] to [w'] the trace has grown, and every sleep it has grown by
    is of the interval that the source calls for. *)
Definition waits_as (source : EventSource) (w w' : World) : Prop :=
  exists extra,
    trace w' = (trace w ++ extra)%list
    /\ Forall (eq (backoff (retryInterval source) (DefaultRetryInterval source)))
              (sleeps extra).

(** The turns the loop of [Next] can take: one for each answer left in
    the script, and one more when a stream is held. *)
Definition turns (source : EventSource) (w : World) : nat :=
  List.length (script w) + match currentReadCloser source with Some _ => 1 | None => 0 end.

(** *** More definitions the statements are written with *)

(** The [Last-Event-ID] headers of the requests of a trace. *)
Definition requests (t : list action) : list string :=
  flat_map (fun a => match a with Do id => [id] | _ => [] end) t.

(** An answer after which [Connect] tries again: an error of the client, or
    one of the four statuses. *)
Definition retry_answer (a : attempt) : bool :=
  match a with
  | Unreachable => true
  | Responds res => retryable (StatusCode res)
  end.

(** What the source does on such an answer. *)
Definition retry_actions (source : EventSource) (a : attempt) : list action :=
  match a with
  | Unreachable =>
      [Do (lastEventID source);
       Sleep (backoff (retryInterval source) (DefaultRetryInterval source))]
  | Responds _ =>
      [Do (lastEventID source); BodyClose;
       Sleep (backoff (retryInterval source) (DefaultRetryInterval source))]
  end.

(** From [w] to [w'] the source has done nothing but send requests with the
    last event id of [source], close bodies and sleep the interval of
    [source]; it has sent one request for each answer that the script has
    lost. *)
Definition acts_as (source : EventSource) (w w' : World) : Prop :=
  exists extra,
    trace w' = (trace w ++ extra)%list
    /\ Forall (fun a => a = Do (lastEventID source) \/ a = BodyClose
                        \/ a = Sleep (backoff (retryInterval source)
                                              (DefaultRetryInterval source))) extra
    /\ exists used,
        script w = (used ++ script w')%list
        /\ List.length used = List.length (requests extra).

End Session.
(** ** Definitions the statements are written with *)

(** [strings.ContainsRune(s, c)] for a one-byte [c]. *)
Fixpoint contains (s : string) (c : ascii) : bool :=
  match s with
  | "" => false
  | String c' s' => Ascii.eqb c' c || contains s' c
  end.

(** The loop with the turns its unread bytes call for. *)
Definition run (reader : Reader) (event : Event) (idPresent : bool) :=
  Next_loop (S (String.length (pending (buf reader)))) reader event idPresent.

(** What one turn of the loop does with a line when it does not dispatch:
    a blank line met with no data and a comment change nothing, any other
    line sets its field. *)
Definition turn (st : Event * bool) (line : string) : Event * bool :=
  if Nat.eqb (String.length line) 0 then st
  else if at_is line 0 ":" then st
  else let (field, value) := field_value line in
       set_field field value (fst st) (snd st).

(** No line of [ls] dispatches, from the accumulator [st]: every blank
    line is met with an empty data buffer. *)
Fixpoint quiet (ls : list string) (st : Event * bool) : bool :=
  match ls with
  | [] => true
  | l :: ls' =>
      (negb (Nat.eqb (String.length l) 0) || Nat.eqb (List.length (Data (fst st))) 0)
      && quiet ls' (turn st l)
  end.

(** What the dispatching blank line returns. *)
Definition dispatch (flt : io_error) (last : string) (st : Event * bool) (rest : string)
  : (Event * option io_error) * Reader :=
  ((mkEvent (ID (fst st)) (Name (fst st))
            (firstn (List.length (Data (fst st)) - 1) (Data (fst st))), None),
   mkReader (if snd st then ID (fst st) else last) (mkBuf rest flt)).

(** The line [Encode] emits for one fragment of the payload. *)
Definition data_line (frag : list byte) : string :=
  if Nat.eqb (List.length frag) 0 then "data" else "data: " ++ str frag.

(** The lines of an encoded event, before the closing blank line. *)
Definition event_lines (event : Event) : list string :=
  ("id: " ++ ID event) :: ("event: " ++ Name event)
    :: map data_line (bytes_Split (Data event) bLF).

(** No byte of [b] is a line feed. *)
Definition LF_free (b : list byte) : bool :=
  forallb (fun x => negb (Byte.eqb x bLF)) b.


(** The line is neither blank nor a comment, and its field is [name]. *)
Definition is_field (name : string) (line : string) : bool :=
  negb (Nat.eqb (String.length line) 0) && negb (at_is line 0 ":")
  && String.eqb (fst (field_value line)) name.

(** The value of the last [id] line among [ls], when there is one. *)
Fixpoint explicit_id (ls : list string) : option string :=
  match ls with
  | [] => None
  | l :: ls' =>
      match explicit_id ls' with
      | Some v => Some v
      | None => if is_field "id" l then Some (snd (field_value l)) else None
      end
  end.

(** A line of an event's block: no line feed inside, and not blank. *)
Definition block_line (l : string) : bool :=
  negb (contains l LF) && negb (Nat.eqb (String.length l) 0).

(** The block of an event that is dispatched: lines with, among them, a
    [data] line. *)
Definition block_ok (b : list string) : bool :=
  forallb block_line b && existsb (is_field "data") b.



(** [n] calls of [Next] in a row: what they returned, and the reader after
    the last of them. *)
Fixpoint Next_times (n : nat) (reader : Reader)
  : list (Event * option io_error) * Reader :=
  match n with
  | O => ([], reader)
  | S n' =>
      match Next reader with
      | Some (res, reader') =>
          let (more, reader'') := Next_times n' reader' in (res :: more, reader'')
      | None => ([], reader)
      end
  end.

(** A stream given line by line, every line followed by CR LF. *)
Definition wire_crlf (lines : list string) : string :=
  fold_right (fun l s => l ++ String CR nl ++ s) "" lines.

(** ** More definitions the statements are written with *)

(** A line the reader passes over: a comment, or a line whose field is
    none of [id], [event] and [data]. *)
Definition passed_over (line : string) : bool :=
  negb (Nat.eqb (String.length line) 0)
  && (at_is line 0 ":"
      || negb (String.eqb (fst (field_value line)) "id")
         && negb (String.eqb (fst (field_value line)) "event")
         && negb (String.eqb (fst (field_value line)) "data")).

(** The value of the last line of [ls] whose field is [name], when there
    is one. *)
Fixpoint last_value (name : string) (ls : list string) : option string :=
  match ls with
  | [] => None
  | l :: ls' =>
      match last_value name ls' with
      | Some v => Some v
      | None => if is_field name l then Some (snd (field_value l)) else None
      end
  end.

(** The values of the [data] lines of [ls], in order. *)
Definition data_values (ls : list string) : list string :=
  map (fun l => snd (field_value l)) (filter (is_field "data") ls).

(** Events encoded one after the other. *)
Definition Encode_all (events : list Event) : string :=
  fold_right (fun event s => Encode event ++ s) "" events.

(** An event that [Encode] puts on the wire without loss: no line feed in
    its id nor in its name. *)
Definition plain_event (event : Event) : bool :=
  negb (contains (ID event) LF) && negb (contains (Name event) LF).

(** The first fault of a list of faults to come. *)
Fixpoint first_fault (faults : list (option io_error)) : option io_error :=
  match faults with
  | [] => None
  | Some err :: _ => Some err
  | None :: later => first_fault later
  end.

(** What writing [text] in [n] calls makes of the destination [d]: the error
    is the first fault of these calls; without error all of [text] is
    received and the faults of the [n] calls are used up; with an error a
    part of [text], and not all of it, is received. *)
Definition wrote (n : nat) (text : string) (d : Writer) (res : Writer * option io_error)
  : Prop :=
  snd res = first_fault (firstn n (faults d))
  /\ match snd res with
     | None => written (fst res) = written d ++ text
               /\ faults (fst res) = skipn n (faults d)
     | Some _ => exists p q, text = p ++ q /\ q <> "" /\ written (fst res) = written d ++ p
     end.
Example Encode_test1 :
  Encode (mkEvent "some-id" "some-name" (bytes "some-data"))
  = wire ["id: some-id"; "event: some-name"; "data: some-data"; ""].
Proof. reflexivity. Qed.

Example Encode_test2 :
  Encode (mkEvent "some-id" "some-name"
            (bytes ("some-data" ++ nl ++ "some-more-data" ++ nl)))
  = wire ["id: some-id"; "event: some-name"; "data: some-data";
          "data: some-more-data"; "data"; ""].
Proof. reflexivity. Qed.

Example Next_test_extra_spaces :
  Next (reading "" (wire ["id:  12"; "event:   some-event";
                          "data:    some-valuable-data"; ""]))
  = Some ((mkEvent " 12" "  some-event" (bytes "   some-valuable-data"), None),
          reading " 12" "").
Proof. reflexivity. Qed.

Example Next_test_no_value :
  Next (reading "" (wire ["id: 12"; "event: some-event"; "data"; "data"; ""]))
  = Some ((mkEvent "12" "some-event" (bytes nl), None), reading "12" "").
Proof. reflexivity. Qed.

Example Next_test_unterminated :
  Next (reading "" (wire ["id: 12"; "event: some-event"; "data: some-valuable-data"]))
  = Some ((Event0, Some io_EOF), reading "" "").
Proof. reflexivity. Qed.


Section SessionExamples.

Import Session.

(** The scenario of the test "retries on the base interval, followed by the
    server-specified interval": the configured interval is 100 ms and the
    third event has a retry directive of 200 ms. *)
Example Next_test_retry_intervals :
  let ms := 1000000%Z in
  let broken := Failed (io_failure "connection reset") in
  perform_all (repeat CallNext 4) (new_source (100 * ms))
    (mkWorld
       [Responds (mkResponse 200 (mkReadCloser [Dispatched (mkEvent "1" "" (bytes "hello") 0);
                                                broken] None));
        Unreachable; Unreachable; Unreachable;
        Responds (mkResponse 200
                    (mkReadCloser [Dispatched (mkEvent "2" "" (bytes "welcome back") 0);
                                   Dispatched (mkEvent "3" "" (bytes "see you in a bit")
                                                       (200 * ms));
                                   broken] None));
        Unreachable;
        Responds (mkResponse 200
                    (mkReadCloser [Dispatched (mkEvent "4" "" (bytes "hello again") 0)] None))]
       [])
  = Some ([(mkEvent "1" "" (bytes "hello") 0, None);
           (mkEvent "2" "" (bytes "welcome back") 0, None);
           (mkEvent "3" "" (bytes "see you in a bit") (200 * ms), None);
           (mkEvent "4" "" (bytes "hello again") 0, None)],
          mkSource (100 * ms) (Some (mkReadCloser [] None)) "4" (200 * ms) false,
          mkWorld []
            [Do ""; Sleep (100 * ms); Do "1"; Sleep (100 * ms); Do "1"; Sleep (100 * ms);
             Do "1"; Sleep (100 * ms); Do "1";
             Sleep (200 * ms); Do "3"; Sleep (200 * ms); Do "3"]).
Proof. reflexivity. Qed.

(** The scenario of the test "when the event reader is closed": another
    goroutine closes the source while [Next] is reading. *)
Example Next_test_closed_while_reading :
  perform_all [CallNext; CallNext; CallConnect; CallNext] (new_source 100)
    (mkWorld
       [Responds (mkResponse 200 (mkReadCloser [Cancelled (io_failure "closed")] None));
        Responds (mkResponse 200
                    (mkReadCloser [Dispatched (mkEvent "2" "" (bytes "hello again") 0)] None))]
       [])
  = Some ([(Event0, Some ErrReadFromClosedSource);
           (Event0, Some ErrReadFromClosedSource);
           (Event0, None);
           (mkEvent "2" "" (bytes "hello again") 0, None)],
          mkSource 100 (Some (mkReadCloser [] None)) "2" 0 false,
          mkWorld [] [Do ""; BodyClose; Do ""]).
Proof. reflexivity. Qed.

(** The scenario of the test "when the server returns 404". *)
Example Next_test_404 :
  Next (new_source 100) (mkWorld [Responds (mkResponse 404 (mkReadCloser [] None))] [])
  = Some ((Event0, Some (BadResponseError (mkResponse 404 (mkReadCloser [] None)))),
          new_source 100, mkWorld [] [Do ""; BodyClose]).
Proof. reflexivity. Qed.

End SessionExamples.
(** ** Facts about strings and byte slices *)

Section StringFacts.

Lemma string_length_app (a b : string) :
  String.length (a ++ b) = String.length a + String.length b.
Proof. induction a as [|c a IH]; simpl; [reflexivity | now rewrite IH]. Qed.

Lemma app_assoc_s (a b c : string) : (a ++ b) ++ c = a ++ (b ++ c).
Proof. induction a as [|x a IH]; simpl; [reflexivity | now rewrite IH]. Qed.

Lemma app_empty_r (a : string) : a ++ "" = a.
Proof. induction a as [|x a IH]; simpl; [reflexivity | now rewrite IH]. Qed.

Lemma substring_all_app (a b : string) :
  substring 0 (String.length a) (a ++ b) = a.
Proof.
  induction a as [|x a IH]; simpl.
  - now destruct b.
  - now rewrite IH.
Qed.

(** [line[0 : len(line)-1]] takes the delimiter off a line that was read. *)
Lemma slice_drop_delim (l : string) (c : ascii) :
  slice (l ++ String c "") 0 (String.length (l ++ String c "") - 1) = l.
Proof.
  unfold slice. rewrite string_length_app. simpl.
  replace (String.length l + 1 - 1 - 0) with (String.length l) by lia.
  apply substring_all_app.
Qed.

Lemma substring_0_length (s : string) : substring 0 (String.length s) s = s.
Proof. induction s as [|x s IH]; simpl; [reflexivity | now rewrite IH]. Qed.

(** [value[1:]] *)
Lemma slice_tail (c : ascii) (s : string) :
  slice (String c s) 1 (String.length (String c s)) = s.
Proof.
  unfold slice. simpl. rewrite Nat.sub_0_r. apply substring_0_length.
Qed.

Lemma cut_at_first (l rest : string) (c : ascii) :
  contains l c = false -> cut (l ++ String c rest) c = Some (l, rest).
Proof.
  induction l as [|x l IH]; simpl; intros H.
  - now rewrite Ascii.eqb_refl.
  - apply orb_false_iff in H as [Hx Hl].
    rewrite Hx, (IH Hl). reflexivity.
Qed.

Lemma cut_none (s : string) (c : ascii) :
  contains s c = false -> cut s c = None.
Proof.
  induction s as [|x s IH]; simpl; intros H; [reflexivity|].
  apply orb_false_iff in H as [Hx Hs].
  now rewrite Hx, (IH Hs).
Qed.

Lemma cut_shorter (s : string) (c : ascii) (a b : string) :
  cut s c = Some (a, b) -> String.length b < String.length s.
Proof.
  revert a b. induction s as [|x s IH]; simpl; intros a b H; [discriminate|].
  destruct (Ascii.eqb x c).
  - injection H as _ <-. lia.
  - destruct (cut s c) as [[a' b']|] eqn:E; [|discriminate].
    injection H as _ <-. specialize (IH _ _ eq_refl). lia.
Qed.

Lemma contains_app (a b : string) (c : ascii) :
  contains (a ++ b) c = contains a c || contains b c.
Proof.
  induction a as [|x a IH]; simpl; [reflexivity|].
  now rewrite IH, orb_assoc.
Qed.

Lemma bytes_app (a b : string) : bytes (a ++ b) = (bytes a ++ bytes b)%list.
Proof.
  unfold bytes, list_byte_of_string.
  induction a as [|x a IH]; simpl; [reflexivity | now rewrite IH].
Qed.

Lemma bytes_str (b : list byte) : bytes (str b) = b.
Proof. apply list_byte_of_string_of_list_byte. Qed.

Lemma str_bytes (s : string) : str (bytes s) = s.
Proof. apply string_of_list_byte_of_string. Qed.

Lemma length_str (b : list byte) : String.length (str b) = List.length b.
Proof.
  unfold str, string_of_list_byte.
  induction b as [|x b IH]; simpl; [reflexivity | now rewrite IH].
Qed.

Lemma bytes_nl : bytes nl = [bLF].
Proof. reflexivity. Qed.

Lemma wire_app (ls ls' : list string) : wire (ls ++ ls') = wire ls ++ wire ls'.
Proof.
  induction ls as [|l ls IH]; simpl; [reflexivity|].
  now rewrite IH, !app_assoc_s.
Qed.

End StringFacts.

(** ** The reader's loop, line by line *)

Section ReaderLoop.

Lemma Next_loop_fuel (f1 f2 : nat) (reader : Reader) (event : Event) (idPresent : bool) :
  String.length (pending (buf reader)) < f1 ->
  String.length (pending (buf reader)) < f2 ->
  Next_loop f1 reader event idPresent = Next_loop f2 reader event idPresent.
Proof.
  revert f2 reader event idPresent.
  induction f1 as [|f1 IH]; intros f2 reader event idPresent H1 H2; [lia|].
  destruct f2 as [|f2]; [lia|].
  simpl. unfold ReadString.
  destruct (cut (pending (buf reader)) LF) as [[before after]|] eqn:E; [|reflexivity].
  apply cut_shorter in E.
  assert (R : forall ev ip,
             Next_loop f1 (mkReader (lastID reader) (mkBuf after (fault (buf reader)))) ev ip
             = Next_loop f2 (mkReader (lastID reader) (mkBuf after (fault (buf reader)))) ev ip).
  { intros ev ip. apply IH; simpl; lia. }
  destruct (Nat.eqb (String.length _) 0); [destruct (Nat.eqb (List.length _) 0)|].
  - apply R.
  - reflexivity.
  - destruct (at_is _ 0 _); [apply R|].
    destruct (field_value _), (set_field _ _ _ _). apply R.
Qed.

(** The loop never runs out of turns. *)
Lemma Next_loop_total (f : nat) (reader : Reader) (event : Event) (idPresent : bool) :
  String.length (pending (buf reader)) < f ->
  exists res, Next_loop f reader event idPresent = Some res.
Proof.
  revert reader event idPresent.
  induction f as [|f IH]; intros reader event idPresent H; [lia|].
  simpl. unfold ReadString.
  destruct (cut (pending (buf reader)) LF) as [[before after]|] eqn:E; [|eexists; reflexivity].
  apply cut_shorter in E.
  assert (R : forall ev ip, exists res,
             Next_loop f (mkReader (lastID reader) (mkBuf after (fault (buf reader)))) ev ip
             = Some res).
  { intros ev ip. apply IH; simpl; lia. }
  destruct (Nat.eqb (String.length _) 0); [destruct (Nat.eqb (List.length _) 0)|].
  - apply R.
  - eexists; reflexivity.
  - destruct (at_is _ 0 _); [apply R|].
    destruct (field_value _), (set_field _ _ _ _). apply R.
Qed.

Lemma Next_total (reader : Reader) : exists res, Next reader = Some res.
Proof. apply Next_loop_total. lia. Qed.

End ReaderLoop.

Section ReaderLines.

Variable flt : io_error.

Lemma ReadString_line (l rest : string) :
  contains l LF = false ->
  ReadString (mkBuf (l ++ nl ++ rest) flt) LF = ((l ++ nl, None), mkBuf rest flt).
Proof.
  intros Hl. unfold ReadString. cbn [pending fault].
  change (l ++ nl ++ rest) with (l ++ String LF rest).
  now rewrite (cut_at_first l rest LF Hl).
Qed.

Lemma slice_drop_nl (l : string) :
  slice (l ++ nl) 0 (String.length (l ++ nl) - 1) = l.
Proof. apply slice_drop_delim. Qed.

(** One turn of the loop. *)
Lemma Next_loop_S (fuel : nat) (reader : Reader) (event : Event) (idPresent : bool) :
  Next_loop (S fuel) reader event idPresent
  = let '((line, err), b) := ReadString (buf reader) LF in
    let reader := mkReader (lastID reader) b in
    match err with
    | Some e => Some ((Event0, Some e), reader)
    | None =>
        let line := slice line 0 (String.length line - 1) in
        if Nat.eqb (String.length line) 0 then
          if Nat.eqb (List.length (Data event)) 0 then
            Next_loop fuel reader event idPresent
          else
            let reader :=
              if idPresent then mkReader (ID event) (buf reader) else reader in
            let event :=
              mkEvent (ID event) (Name event)
                      (firstn (List.length (Data event) - 1) (Data event)) in
            Some ((event, None), reader)
        else
          if at_is line 0 ":" then Next_loop fuel reader event idPresent
          else
            let (field, value) := field_value line in
            let (event, idPresent) := set_field field value event idPresent in
            Next_loop fuel reader event idPresent
    end.
Proof. reflexivity. Qed.

Lemma run_line (last l rest : string) (event : Event) (idPresent : bool) :
  contains l LF = false ->
  run (mkReader last (mkBuf (l ++ nl ++ rest) flt)) event idPresent
  = if Nat.eqb (String.length l) 0 then
      if Nat.eqb (List.length (Data event)) 0 then
        run (mkReader last (mkBuf rest flt)) event idPresent
      else Some (dispatch flt last (event, idPresent) rest)
    else
      run (mkReader last (mkBuf rest flt))
          (fst (turn (event, idPresent) l)) (snd (turn (event, idPresent) l)).
Proof.
  intros Hl. unfold run at 1. cbn [buf pending].
  rewrite Next_loop_S. cbn [buf lastID].
  rewrite (ReadString_line _ _ Hl). cbn [buf lastID]. rewrite slice_drop_nl.
  assert (F : forall ev ip,
             Next_loop (String.length (l ++ nl ++ rest))
                       (mkReader last (mkBuf rest flt)) ev ip
             = run (mkReader last (mkBuf rest flt)) ev ip).
  { intros ev ip. apply Next_loop_fuel; cbn [buf pending]; [|lia].
    rewrite !string_length_app. simpl. lia. }
  unfold turn. cbn [fst snd].
  destruct (Nat.eqb (String.length l) 0).
  - destruct (Nat.eqb (List.length (Data event)) 0); [apply F|].
    unfold dispatch. cbn [fst snd]. now destruct idPresent.
  - destruct (at_is l 0 ":"); [apply F|].
    destruct (field_value l) as [field value].
    destruct (set_field field value event idPresent) as [ev' ip']. apply F.
Qed.

(** Lines that do not dispatch are folded into the accumulator. *)
Lemma run_quiet (ls : list string) : forall last rest st,
  forallb (fun l => negb (contains l LF)) ls = true ->
  quiet ls st = true ->
  run (mkReader last (mkBuf (wire ls ++ rest) flt)) (fst st) (snd st)
  = run (mkReader last (mkBuf rest flt))
        (fst (fold_left turn ls st)) (snd (fold_left turn ls st)).
Proof.
  induction ls as [|l ls IH]; intros last rest st Hfree Hq; [reflexivity|].
  cbn [forallb] in Hfree. apply andb_true_iff in Hfree as [Hl Hls].
  apply negb_true_iff in Hl.
  cbn [quiet] in Hq. apply andb_true_iff in Hq as [Hb Hq].
  cbn [wire fold_right fold_left]. fold (wire ls).
  rewrite !app_assoc_s, (run_line _ _ _ _ _ Hl).
  destruct (Nat.eqb (String.length l) 0) eqn:El.
  - cbn [negb orb] in Hb. rewrite Hb.
    assert (T : turn st l = st) by (unfold turn; now rewrite El).
    rewrite T in *. now apply IH.
  - rewrite <- surjective_pairing. now apply IH.
Qed.

(** A call of [Next] that meets lines that do not dispatch, and then a
    blank line with data in the buffer, returns the accumulated event. *)
Lemma Next_block (ls : list string) (last rest : string) :
  forallb (fun l => negb (contains l LF)) ls = true ->
  quiet ls (mkEvent last "" [], false) = true ->
  Data (fst (fold_left turn ls (mkEvent last "" [], false))) <> [] ->
  Next (mkReader last (mkBuf (wire ls ++ nl ++ rest) flt))
  = Some (dispatch flt last (fold_left turn ls (mkEvent last "" [], false)) rest).
Proof.
  intros Hfree Hq Hd. unfold Next. cbn [lastID].
  change (Next_loop _ ?r ?e ?b) with (run r (fst (e, b)) (snd (e, b))).
  rewrite (run_quiet ls last (nl ++ rest) _ Hfree Hq).
  change (nl ++ rest) with ("" ++ nl ++ rest).
  rewrite run_line by reflexivity. cbn [String.length Nat.eqb].
  destruct (Data _) eqn:E; [congruence|].
  cbn [List.length Nat.eqb]. now rewrite <- surjective_pairing.
Qed.

End ReaderLines.

(** ** The encoder, line by line *)

Section EncodeLines.

Lemma fold_encode_line (frags : list (list byte)) : forall enc,
  fold_left encode_line frags enc = enc ++ wire (map data_line frags).
Proof.
  induction frags as [|frag frags IH]; intros enc; cbn [fold_left map wire fold_right].
  - now rewrite app_empty_r.
  - fold (wire (map data_line frags)). rewrite IH.
    unfold encode_line, data_line.
    destruct (Nat.eqb (List.length frag) 0); now rewrite !app_assoc_s.
Qed.

Lemma Encode_lines (event : Event) :
  Encode event = wire (event_lines event) ++ nl.
Proof.
  unfold Encode, event_lines. rewrite fold_encode_line.
  cbn [wire fold_right]. fold (wire (map data_line (bytes_Split (Data event) bLF))).
  now rewrite !app_assoc_s.
Qed.

Lemma bytes_Split_nonempty (s : list byte) (sep : byte) : bytes_Split s sep <> [].
Proof.
  destruct s as [|b s]; cbn [bytes_Split]; [discriminate|].
  destruct (Byte.eqb b sep); [discriminate|].
  destruct (bytes_Split s sep); discriminate.
Qed.

(** The fragments hold no separator... *)
Lemma bytes_Split_free (s : list byte) :
  forallb LF_free (bytes_Split s bLF) = true.
Proof.
  induction s as [|b s IH]; [reflexivity|].
  cbn [bytes_Split]. destruct (Byte.eqb b bLF) eqn:E.
  - cbn [forallb LF_free]. exact IH.
  - destruct (bytes_Split s bLF) as [|frag frags]; cbn [forallb LF_free] in *.
    + now rewrite E.
    + now rewrite E.
Qed.

(** ... and joined again, each followed by the separator, they are the
    payload followed by one separator. *)
Lemma bytes_Split_join (s : list byte) :
  concat (map (fun frag => frag ++ [bLF])%list (bytes_Split s bLF)) = (s ++ [bLF])%list.
Proof.
  induction s as [|b s IH]; [reflexivity|].
  cbn [bytes_Split]. destruct (Byte.eqb b bLF) eqn:E.
  - apply Byte.byte_dec_bl in E. subst b.
    cbn [map concat]. rewrite IH. reflexivity.
  - pose proof (bytes_Split_nonempty s bLF) as Hne.
    destruct (bytes_Split s bLF) as [|frag frags]; [congruence|].
    cbn [map concat app] in *. now rewrite IH.
Qed.

Lemma str_LF_free (b : list byte) :
  LF_free b = true -> contains (str b) LF = false.
Proof.
  unfold str, string_of_list_byte.
  induction b as [|x b IH]; cbn [LF_free forallb map string_of_list_ascii contains];
    intros H; [reflexivity|].
  apply andb_true_iff in H as [Hx Hb].
  rewrite (IH Hb), orb_false_r.
  apply negb_true_iff in Hx.
  destruct (Ascii.eqb_spec (ascii_of_byte x) LF) as [Heq|]; [|reflexivity].
  apply Byte.eqb_false in Hx. exfalso. apply Hx.
  now rewrite <- (byte_of_ascii_of_byte x), Heq.
Qed.

Lemma data_line_free (frag : list byte) :
  LF_free frag = true -> contains (data_line frag) LF = false.
Proof.
  intros H. unfold data_line.
  destruct (Nat.eqb (List.length frag) 0); [reflexivity|].
  rewrite contains_app, (str_LF_free _ H). reflexivity.
Qed.

(** A line [field: value], with no colon in [field]. *)
Lemma field_value_colon_space (field value : string) :
  contains field ":" = false ->
  field_value (field ++ ": " ++ value) = (field, value).
Proof.
  intros H. unfold field_value, strings_SplitN2.
  change (field ++ ": " ++ value) with (field ++ String ":" (String " " value)).
  rewrite (cut_at_first _ _ _ H).
  change (Nat.ltb 0 (String.length (String " " value))) with true.
  change (at_is (String " " value) 0 " ") with true.
  cbv iota. now rewrite slice_tail.
Qed.

(** A line that is a field name and nothing else. *)
Lemma field_value_bare (field : string) :
  contains field ":" = false -> field_value field = (field, "").
Proof.
  intros H. unfold field_value, strings_SplitN2.
  now rewrite (cut_none _ _ H).
Qed.

Lemma turn_field (c : ascii) (field value : string) (st : Event * bool) :
  contains (String c field) ":" = false ->
  turn st (String c field ++ ": " ++ value)
  = set_field (String c field) value (fst st) (snd st).
Proof.
  intros H. unfold turn.
  rewrite (field_value_colon_space _ _ H).
  cbn [contains] in H. apply orb_false_iff in H as [Hc _].
  cbn [append String.length Nat.eqb at_is get]. now rewrite Hc.
Qed.

Lemma turn_bare (c : ascii) (field : string) (st : Event * bool) :
  contains (String c field) ":" = false ->
  turn st (String c field) = set_field (String c field) "" (fst st) (snd st).
Proof.
  intros H. unfold turn.
  rewrite (field_value_bare _ H).
  cbn [contains] in H. apply orb_false_iff in H as [Hc _].
  cbn [String.length Nat.eqb at_is get]. now rewrite Hc.
Qed.

(** What the reader makes of a data line. *)
Lemma turn_data_line (frag : list byte) (event : Event) (idPresent : bool) :
  turn (event, idPresent) (data_line frag)
  = (mkEvent (ID event) (Name event) (Data event ++ frag ++ [bLF])%list, idPresent).
Proof.
  unfold data_line.
  destruct frag as [|x frag]; [reflexivity|].
  cbn [List.length Nat.eqb].
  change ("data: " ++ str (x :: frag)) with ("data" ++ ": " ++ str (x :: frag)).
  rewrite (turn_field "d" "ata") by reflexivity.
  unfold set_field. cbn [fst snd].
  change ("data" =? "id") with false. change ("data" =? "event") with false.
  change ("data" =? "data") with true. cbv iota.
  now rewrite bytes_app, bytes_str, bytes_nl.
Qed.

Lemma turn_data_lines (frags : list (list byte)) : forall event idPresent,
  fold_left turn (map data_line frags) (event, idPresent)
  = (mkEvent (ID event) (Name event)
             (Data event ++ concat (map (fun frag => frag ++ [bLF])%list frags))%list,
     idPresent).
Proof.
  induction frags as [|frag frags IH]; intros event idPresent; cbn [map fold_left concat].
  - rewrite app_nil_r. now destruct event.
  - rewrite turn_data_line, IH. cbn [ID Name Data].
    now rewrite <- !app_assoc.
Qed.

Lemma quiet_data_lines (frags : list (list byte)) : forall st,
  quiet (map data_line frags) st = true.
Proof.
  induction frags as [|frag frags IH]; intros st; [reflexivity|].
  cbn [map quiet]. rewrite IH, andb_true_r.
  unfold data_line. destruct (Nat.eqb (List.length frag) 0); reflexivity.
Qed.

Lemma turn_id_line (value : string) (event : Event) (idPresent : bool) :
  turn (event, idPresent) ("id: " ++ value)
  = (mkEvent value (Name event) (Data event), true).
Proof.
  change ("id: " ++ value) with ("id" ++ ": " ++ value).
  now rewrite (turn_field "i" "d") by reflexivity.
Qed.

Lemma turn_event_line (value : string) (event : Event) (idPresent : bool) :
  turn (event, idPresent) ("event: " ++ value)
  = (mkEvent (ID event) value (Data event), idPresent).
Proof.
  change ("event: " ++ value) with ("event" ++ ": " ++ value).
  now rewrite (turn_field "e" "vent") by reflexivity.
Qed.

End EncodeLines.

(** ** What the lines of a block do to the accumulator *)

Section Turns.

Lemma turn_cases (st : Event * bool) (l : string) :
  turn st l
  = if is_field "id" l then
      (mkEvent (snd (field_value l)) (Name (fst st)) (Data (fst st)), true)
    else if is_field "event" l then
      (mkEvent (ID (fst st)) (snd (field_value l)) (Data (fst st)), snd st)
    else if is_field "data" l then
      (mkEvent (ID (fst st)) (Name (fst st))
               (Data (fst st) ++ bytes (snd (field_value l) ++ nl))%list, snd st)
    else st.
Proof.
  unfold turn, is_field.
  destruct (Nat.eqb (String.length l) 0); [reflexivity|].
  destruct (at_is l 0 ":"); [reflexivity|].
  destruct (field_value l) as [field value]. cbn [negb andb fst snd].
  unfold set_field.
  destruct (String.eqb field "id"); [reflexivity|].
  destruct (String.eqb field "event"); [reflexivity|].
  destruct (String.eqb field "data"); [reflexivity|].
  now destruct st.
Qed.

Lemma is_field_distinct (a b l : string) :
  a <> b -> is_field a l = true -> is_field b l = false.
Proof.
  unfold is_field. intros Hab H.
  apply andb_true_iff in H as [H1 H2]. rewrite H1. cbn [andb].
  apply String.eqb_eq in H2. apply String.eqb_neq. congruence.
Qed.

Lemma turn_id (st : Event * bool) (l : string) :
  ID (fst (turn st l))
  = (if is_field "id" l then snd (field_value l) else ID (fst st))
  /\ snd (turn st l) = (snd st || is_field "id" l)%bool.
Proof.
  rewrite turn_cases.
  destruct (is_field "id" l); [now rewrite orb_true_r|].
  rewrite orb_false_r.
  destruct (is_field "event" l); [now split|].
  destruct (is_field "data" l); now split.
Qed.

Lemma turn_data (st : Event * bool) (l : string) :
  Data (fst (turn st l))
  = if is_field "data" l
    then (Data (fst st) ++ bytes (snd (field_value l) ++ nl))%list
    else Data (fst st).
Proof.
  rewrite turn_cases.
  destruct (is_field "id" l) eqn:Ei.
  - now rewrite (is_field_distinct "id" "data" l) by (discriminate || assumption).
  - destruct (is_field "event" l) eqn:Ee.
    + now rewrite (is_field_distinct "event" "data" l) by (discriminate || assumption).
    + now destruct (is_field "data" l).
Qed.

(** The id of the accumulator after the lines [ls]: that of the last [id]
    line, or the one it had; and whether an [id] line was met. *)
Lemma fold_turn_id (ls : list string) : forall st,
  ID (fst (fold_left turn ls st))
  = match explicit_id ls with Some v => v | None => ID (fst st) end
  /\ snd (fold_left turn ls st)
     = (snd st || match explicit_id ls with Some _ => true | None => false end)%bool.
Proof.
  induction ls as [|l ls IH]; intros st; cbn [fold_left explicit_id].
  - now rewrite orb_false_r.
  - destruct (IH (turn st l)) as [H1 H2]. rewrite H1, H2.
    destruct (turn_id st l) as [T1 T2]. rewrite T1, T2.
    destruct (explicit_id ls); [split; [reflexivity | now rewrite !orb_true_r]|].
    rewrite orb_false_r.
    destruct (is_field "id" l); split; reflexivity.
Qed.

Lemma fold_turn_no_data (ls : list string) : forall st,
  existsb (is_field "data") ls = false ->
  Data (fst (fold_left turn ls st)) = Data (fst st).
Proof.
  induction ls as [|l ls IH]; intros st H; [reflexivity|].
  cbn [existsb] in H. apply orb_false_iff in H as [Hl Hls].
  cbn [fold_left]. rewrite (IH _ Hls), turn_data, Hl. reflexivity.
Qed.

Lemma fold_turn_data_grows (ls : list string) : forall st,
  List.length (Data (fst st)) <= List.length (Data (fst (fold_left turn ls st))).
Proof.
  induction ls as [|l ls IH]; intros st; [apply Nat.le_refl|].
  cbn [fold_left]. etransitivity; [|apply IH].
  rewrite turn_data. destruct (is_field "data" l); [|apply Nat.le_refl].
  rewrite List.length_app. lia.
Qed.

(** A [data] line leaves bytes in the buffer, whatever its value. *)
Lemma fold_turn_has_data (ls : list string) : forall st,
  existsb (is_field "data") ls = true ->
  Data (fst (fold_left turn ls st)) <> [].
Proof.
  induction ls as [|l ls IH]; intros st H; [discriminate|].
  cbn [existsb] in H. cbn [fold_left].
  destruct (is_field "data" l) eqn:El; [|now apply IH].
  pose proof (fold_turn_data_grows ls (turn st l)) as G.
  rewrite turn_data, El in G.
  rewrite List.length_app, bytes_app, List.length_app in G. cbn [bytes_nl List.length] in G.
  change (List.length (bytes nl)) with 1 in G.
  intros E. rewrite E in G. cbn [List.length] in G. lia.
Qed.

Lemma block_lines_quiet (ls : list string) : forall st,
  forallb block_line ls = true -> quiet ls st = true.
Proof.
  induction ls as [|l ls IH]; intros st H; [reflexivity|].
  cbn [forallb] in H. apply andb_true_iff in H as [Hl Hls].
  unfold block_line in Hl. apply andb_true_iff in Hl as [_ Hl].
  cbn [quiet]. now rewrite Hl, (IH _ Hls).
Qed.

Lemma block_lines_free (ls : list string) :
  forallb block_line ls = true ->
  forallb (fun l => negb (contains l LF)) ls = true.
Proof.
  induction ls as [|l ls IH]; intros H; [reflexivity|].
  cbn [forallb] in *. apply andb_true_iff in H as [Hl Hls].
  unfold block_line in Hl. apply andb_true_iff in Hl as [Hl _].
  now rewrite Hl, (IH Hls).
Qed.

(** [Next] on the block of an event. *)
Lemma Next_block_ok (flt : io_error) (b : list string) (last rest : string) :
  block_ok b = true ->
  Next (mkReader last (mkBuf (wire b ++ nl ++ rest) flt))
  = Some (dispatch flt last (fold_left turn b (mkEvent last "" [], false)) rest).
Proof.
  intros H. unfold block_ok in H. apply andb_true_iff in H as [Hl Hd].
  apply Next_block.
  - now apply block_lines_free.
  - now apply block_lines_quiet.
  - now apply fold_turn_has_data.
Qed.

End Turns.

(** ** Encoding and reading back *)

Section RoundTrip.

Lemma firstn_drop_last {A : Type} (d : list A) (x : A) :
  firstn (List.length (d ++ [x]) - 1) (d ++ [x]) = d.
Proof.
  rewrite List.length_app. cbn [List.length].
  replace (List.length d + 1 - 1) with (List.length d + 0) by lia.
  rewrite firstn_app_2. cbn [firstn]. apply app_nil_r.
Qed.

Lemma event_lines_free (event : Event) :
  contains (ID event) LF = false ->
  contains (Name event) LF = false ->
  forallb (fun l => negb (contains l LF)) (event_lines event) = true.
Proof.
  intros Hid Hname. unfold event_lines. cbn [forallb].
  rewrite !contains_app, Hid, Hname. cbn [contains Ascii.eqb orb negb andb].
  assert (G : forall frags, forallb LF_free frags = true ->
              forallb (fun l => negb (contains l LF)) (map data_line frags) = true).
  { induction frags as [|frag frags IH]; [reflexivity|].
    cbn [forallb map]. intros H. apply andb_true_iff in H as [H1 H2].
    now rewrite (data_line_free _ H1), (IH H2). }
  apply G, bytes_Split_free.
Qed.

Lemma event_lines_turn (event : Event) (last : string) :
  fold_left turn (event_lines event) (mkEvent last "" [], false)
  = (mkEvent (ID event) (Name event) (Data event ++ [bLF])%list, true).
Proof.
  unfold event_lines. cbn [fold_left].
  rewrite turn_id_line, turn_event_line, turn_data_lines. cbn [ID Name Data].
  now rewrite bytes_Split_join.
Qed.

Lemma event_lines_quiet (event : Event) (st : Event * bool) :
  quiet (event_lines event) st = true.
Proof.
  unfold event_lines. cbn [quiet].
  rewrite quiet_data_lines. reflexivity.
Qed.

End RoundTrip.

(** C1, as the code has it.  An event whose id and name hold no line feed
    is read back as it was encoded: [Encode] gives the [id:] line, the
    [event:] line and one [data] line for each fragment of the payload
    between line feeds; the fragments, each followed by a line feed, make
    the payload and one line feed more; and [Next], on the encoded bytes,
    returns the event itself, having taken that one line feed off, and
    remembers its id. *)
Theorem Encode_Next_round_trip (event : Event) (flt : io_error) (last rest : string) :
  contains (ID event) LF = false ->
  contains (Name event) LF = false ->
  Encode event = wire (event_lines event) ++ nl
  /\ concat (map (fun frag => frag ++ [bLF])%list (bytes_Split (Data event) bLF))
     = (Data event ++ [bLF])%list
  /\ Next (mkReader last (mkBuf (Encode event ++ rest) flt))
     = Some ((event, None), mkReader (ID event) (mkBuf rest flt)).
Proof.
  intros Hid Hname. split; [apply Encode_lines|]. split; [apply bytes_Split_join|].
  rewrite Encode_lines, !app_assoc_s.
  rewrite Next_block.
  - rewrite event_lines_turn. unfold dispatch. cbn [fst snd ID Name Data].
    rewrite firstn_drop_last. now destruct event.
  - now apply event_lines_free.
  - apply event_lines_quiet.
  - rewrite event_lines_turn. cbn [fst Data]. now destruct (Data event).
Qed.

Lemma Encode_Next_round_trip_witness :
  contains "12" LF = false
  /\ contains "greeting" LF = false
  /\ Next (reading "7" (Encode (mkEvent "12" "greeting" (bytes ("hello" ++ nl ++ nl ++ "you")))
                       ++ ""))
     = Some ((mkEvent "12" "greeting" (bytes ("hello" ++ nl ++ nl ++ "you")), None),
             reading "12" "").
Proof.
  split; [reflexivity|]. split; [reflexivity|].
  apply (Encode_Next_round_trip
           (mkEvent "12" "greeting" (bytes ("hello" ++ nl ++ nl ++ "you")))
           io_EOF "7" "" eq_refl eq_refl).
Defined.

(** C1 as it is written fails: an id with a line feed inside is cut at the
    line feed when it is read back. *)
Lemma Encode_Next_id_with_line_feed :
  Next (NewReader (mkBuf (Encode (mkEvent ("a" ++ nl ++ "b") "n" (bytes "x"))) io_EOF))
  = Some ((mkEvent "a" "n" (bytes "x"), None), reading "a" "")
  /\ mkEvent "a" "n" (bytes "x") <> mkEvent ("a" ++ nl ++ "b") "n" (bytes "x").
Proof. split; [reflexivity | discriminate]. Qed.

(** ** The two encoders *)

Section WriteFacts.

Lemma Fprintf_ok (destination : Writer) (text : string) :
  snd (Fprintf destination text) = None ->
  written (fst (Fprintf destination text)) = written destination ++ text.
Proof.
  unfold Fprintf. destruct (faults destination) as [|[err|] later]; cbn [fst snd written];
    intros H; [reflexivity | discriminate | reflexivity].
Qed.

Lemma write_lines_ok (lines : list (list byte)) : forall destination,
  snd (write_lines destination lines) = None ->
  written (fst (write_lines destination lines))
  = written destination ++ wire (map data_line lines).
Proof.
  induction lines as [|line lines IH]; intros destination H; cbn [write_lines] in *.
  - cbn [map wire fold_right fst]. now rewrite app_empty_r.
  - cbn [map wire fold_right]. fold (wire (map data_line lines)).
    unfold data_line.
    destruct (Nat.eqb (List.length line) 0);
      match type of H with
      | context [Fprintf destination ?t] =>
          pose proof (Fprintf_ok destination t) as F;
          destruct (Fprintf destination t) as [d [e|]]; cbn [fst snd] in *;
          [discriminate|]; rewrite (IH d H), (F eq_refl), !app_assoc_s; reflexivity
      end.
Qed.

End WriteFacts.

(** C10.  When [Write] returns no error, the destination has received,
    after what it held, the very bytes that [Encode] returns. *)
Theorem Write_writes_Encode (event : Event) (destination : Writer) :
  snd (Write event destination) = None ->
  written (fst (Write event destination)) = written destination ++ Encode event.
Proof.
  rewrite Encode_lines. unfold Write, event_lines. intros H.
  pose proof (Fprintf_ok destination ("id: " ++ ID event ++ nl)) as F1.
  destruct (Fprintf destination ("id: " ++ ID event ++ nl)) as [d1 [e|]];
    cbn [fst snd] in *; [discriminate|].
  pose proof (Fprintf_ok d1 ("event: " ++ Name event ++ nl)) as F2.
  destruct (Fprintf d1 ("event: " ++ Name event ++ nl)) as [d2 [e|]];
    cbn [fst snd] in *; [discriminate|].
  pose proof (write_lines_ok (bytes_Split (Data event) bLF) d2) as F3.
  destruct (write_lines d2 (bytes_Split (Data event) bLF)) as [d3 [e|]];
    cbn [fst snd] in *; [discriminate|].
  rewrite (Fprintf_ok d3 nl H), (F3 eq_refl), (F2 eq_refl), (F1 eq_refl).
  cbn [wire fold_right]. fold (wire (map data_line (bytes_Split (Data event) bLF))).
  now rewrite !app_assoc_s.
Qed.

Lemma Write_writes_Encode_witness :
  snd (Write (mkEvent "some-id" "some-name" (bytes ("some-data" ++ nl ++ "some-more-data" ++ nl)))
             (mkWriter "" [])) = None
  /\ written (fst (Write (mkEvent "some-id" "some-name"
                            (bytes ("some-data" ++ nl ++ "some-more-data" ++ nl)))
                         (mkWriter "" [])))
     = "" ++ Encode (mkEvent "some-id" "some-name"
                       (bytes ("some-data" ++ nl ++ "some-more-data" ++ nl))).
Proof.
  split; [reflexivity|].
  apply (Write_writes_Encode
           (mkEvent "some-id" "some-name" (bytes ("some-data" ++ nl ++ "some-more-data" ++ nl)))
           (mkWriter "" [])).
  reflexivity.
Defined.

(** ** The reader *)

(** At a blank line met with an empty data buffer the loop goes on with
    the accumulator it has: the id, the name and the presence flag that the
    lines before have set stay set. *)
Remark blank_line_keeps_accumulator
       (flt : io_error) (last rest : string) (event : Event) (idPresent : bool) :
  Data event = [] ->
  run (mkReader last (mkBuf (nl ++ rest) flt)) event idPresent
  = run (mkReader last (mkBuf rest flt)) event idPresent.
Proof.
  intros H. change (nl ++ rest) with ("" ++ nl ++ rest).
  rewrite run_line by reflexivity. now rewrite H.
Qed.

(** C4, at the input that shows the defect.  The block [id: 12],
    [event: some-event] has no data, and its blank line dispatches nothing;
    but the loop goes on with the accumulator as it is, so the next event,
    which has a [data] line only, comes out with that id and that name. *)
Theorem Next_keeps_fields_of_skipped_block :
  Next (reading "7" (wire ["id: 12"; "event: some-event"; ""; "data: hello"; ""]))
  = Some ((mkEvent "12" "some-event" (bytes "hello"), None), reading "12" "").
Proof. reflexivity. Qed.

(** The name alone is enough to see it. *)
Example Next_keeps_name_of_skipped_block :
  Next (reading "" (wire ["event: some-event"; ""; "data: hello"; ""]))
  = Some ((mkEvent "" "some-event" (bytes "hello"), None), reading "" "").
Proof. reflexivity. Qed.

(** A line that holds a carriage return only is a line like any other of
    an unknown field: the loop goes on, whatever the data buffer holds. *)
Remark CR_line_is_not_blank
       (flt : io_error) (last rest : string) (event : Event) (idPresent : bool) :
  run (mkReader last (mkBuf (String CR nl ++ rest) flt)) event idPresent
  = run (mkReader last (mkBuf rest flt)) event idPresent.
Proof.
  change (String CR nl ++ rest) with (String CR "" ++ nl ++ rest).
  rewrite run_line by reflexivity. reflexivity.
Qed.

(** C6, at the input of the reader's own test.  With CR LF line endings
    the carriage return stays at the end of every line: the line that holds
    a carriage return only is not blank, nothing is dispatched, and [Next]
    reaches the end of the stream. *)
Theorem Next_on_CRLF_stream :
  Next (NewReader (mkBuf (wire_crlf [":foo bar baz"; "id: 123"; "event: some-event";
                                     "data: hello"; ""]) io_EOF))
  = Some ((Event0, Some io_EOF), reading "" "").
Proof. reflexivity. Qed.

(** The same stream with bare line feeds is dispatched. *)
Example Next_on_LF_stream :
  Next (NewReader (mkBuf (wire [":foo bar baz"; "id: 123"; "event: some-event";
                                "data: hello"; ""]) io_EOF))
  = Some ((mkEvent "123" "some-event" (bytes "hello"), None), reading "123" "").
Proof. reflexivity. Qed.

Section Ids.

Variable flt : io_error.

Lemma last_cons_default {A : Type} (l : list A) : forall x d : A,
  List.last (x :: l) d = List.last l x.
Proof.
  induction l as [|y l IH]; intros x d; [reflexivity|].
  change (List.last (x :: y :: l) d) with (List.last (y :: l) d).
  rewrite (IH y d), (IH y x). reflexivity.
Qed.

Lemma Next_times_S (n : nat) (reader reader' : Reader) (res : Event * option io_error) :
  Next reader = Some (res, reader') ->
  Next_times (S n) reader
  = (res :: fst (Next_times n reader'), snd (Next_times n reader')).
Proof.
  intros H. cbn [Next_times]. rewrite H.
  now destruct (Next_times n reader').
Qed.


End Ids.



(** C9.  In a block whose only [data] line is the bare word [data], that
    line puts one line feed in the buffer; the blank line finds the buffer
    filled, dispatches, and the event it returns has no byte of data. *)
Theorem Next_returns_empty_data
        (flt : io_error) (before after : list string) (last rest : string) :
  forallb block_line before = true ->
  forallb block_line after = true ->
  existsb (is_field "data") before = false ->
  existsb (is_field "data") after = false ->
  Data (fst (fold_left turn (before ++ ["data"]) (mkEvent last "" [], false))) = [bLF]
  /\ exists event reader',
      Next (mkReader last (mkBuf (wire (before ++ "data" :: after) ++ nl ++ rest) flt))
      = Some ((event, None), reader')
      /\ Data event = []
      /\ buf reader' = mkBuf rest flt.
Proof.
  intros Hb Ha Db Da.
  assert (D1 : Data (fst (fold_left turn (before ++ ["data"]) (mkEvent last "" [], false)))
               = [bLF]).
  { rewrite fold_left_app. cbn [fold_left].
    rewrite turn_data, (fold_turn_no_data _ _ Db). reflexivity. }
  split; [exact D1|].
  assert (D2 : Data (fst (fold_left turn (before ++ "data" :: after)
                                    (mkEvent last "" [], false))) = [bLF]).
  { change (before ++ "data" :: after)%list with (before ++ ["data"] ++ after)%list.
    rewrite app_assoc, fold_left_app, (fold_turn_no_data _ _ Da). exact D1. }
  eexists. eexists. split; [|split].
  - apply Next_block.
    + apply block_lines_free. rewrite forallb_app. cbn [forallb]. now rewrite Hb, Ha.
    + apply block_lines_quiet. rewrite forallb_app. cbn [forallb]. now rewrite Hb, Ha.
    + now rewrite D2.
  - cbn [Data]. now rewrite D2.
  - reflexivity.
Qed.

Lemma Next_returns_empty_data_witness :
  forallb block_line ["event: ping"] = true
  /\ forallb block_line ["id: 8"] = true
  /\ existsb (is_field "data") ["event: ping"] = false
  /\ existsb (is_field "data") ["id: 8"] = false
  /\ exists event reader',
      Next (reading "7" (wire (["event: ping"] ++ "data" :: ["id: 8"]) ++ nl ++ "data: next"))
      = Some ((event, None), reader')
      /\ Data event = []
      /\ buf reader' = mkBuf "data: next" io_EOF.
Proof.
  repeat (split; [reflexivity|]).
  apply (Next_returns_empty_data io_EOF ["event: ping"] ["id: 8"] "7" "data: next"
           eq_refl eq_refl eq_refl eq_refl).
Defined.

(** ** The event source, call by call *)

Section SessionFacts.

Import Session.

Lemma waitForRetry_backoff (source : EventSource) (w : World) :
  waitForRetry source w
  = act (Sleep (backoff (retryInterval source) (DefaultRetryInterval source))) w.
Proof.
  unfold waitForRetry, backoff.
  destruct (Z.eqb (retryInterval source) 0); [|reflexivity].
  destruct (Z.eqb (DefaultRetryInterval source) 0); reflexivity.
Qed.

Lemma Close_spec (source : EventSource) (w : World) :
  snd (fst (Close source w))
  = mkSource (DefaultRetryInterval source) None (lastEventID source)
             (retryInterval source) true
  /\ script (snd (Close source w)) = script w
  /\ trace (snd (Close source w))
     = (trace w ++ match currentReadCloser source with
                   | Some _ => [BodyClose]
                   | None => []
                   end)%list.
Proof.
  unfold Close. cbn [set_closed currentReadCloser].
  destruct (currentReadCloser source) as [rc|].
  - destruct (closeErr rc); repeat split.
  - cbn. rewrite app_nil_r. repeat split.
Qed.

Lemma Connect_loop_spec (answers : list attempt) (source : EventSource) :
  forall done err source' w',
  Connect_loop answers source done = Some (err, source', w') ->
  connected source err source'
  /\ List.length (script w') < List.length answers
  /\ exists extra,
      trace w' = (done ++ extra)%list
      /\ Forall (eq (backoff (retryInterval source) (DefaultRetryInterval source)))
                (sleeps extra).
Proof.
  induction answers as [|answer answers IH]; intros done err source' w' H; [discriminate|].
  cbn [Connect_loop] in H.
  assert (Again : forall done', 
             Connect_loop answers source (done ++ done') = Some (err, source', w') ->
             Forall (eq (backoff (retryInterval source) (DefaultRetryInterval source)))
                    (sleeps done') ->
             connected source err source'
             /\ List.length (script w') < List.length (answer :: answers)
             /\ exists extra,
                 trace w' = (done ++ extra)%list
                 /\ Forall (eq (backoff (retryInterval source) (DefaultRetryInterval source)))
                           (sleeps extra)).
  { intros done' H' Hs. destruct (IH _ _ _ _ H') as [C [L [extra [T S]]]].
    split; [exact C|]. split; [cbn [List.length]; lia|].
    exists (done' ++ extra)%list. split; [now rewrite T, app_assoc|].
    unfold sleeps in *. rewrite flat_map_app. now apply Forall_app. }
  destruct answer as [|res].
  - rewrite waitForRetry_backoff in H. cbn [act trace script] in H.
    rewrite <- app_assoc in H. apply (Again _ H).
    cbn. repeat constructor.
  - destruct (Z.eqb_spec (StatusCode res) StatusOK) as [Hok|Hok].
    + injection H as <- <- <-. split; [exact (connected_ok source res Hok)|].
      split; [cbn; lia|]. eexists. split; [reflexivity|]. cbn. constructor.
    + fold (retryable (StatusCode res)) in H.
      change (Z.eqb (StatusCode res) StatusInternalServerError
              || Z.eqb (StatusCode res) StatusBadGateway
              || Z.eqb (StatusCode res) StatusServiceUnavailable
              || Z.eqb (StatusCode res) StatusGatewayTimeout)%bool
        with (retryable (StatusCode res)) in H.
      destruct (retryable (StatusCode res)) eqn:R.
      * rewrite waitForRetry_backoff in H. cbn [act trace script] in H.
        rewrite <- !app_assoc in H. apply (Again _ H).
        cbn. repeat constructor.
      * injection H as <- <- <-. split; [exact (connected_bad source res Hok R)|].
        split; [cbn; lia|]. cbn [act trace script]. rewrite <- app_assoc.
        eexists. split; [reflexivity|]. cbn. constructor.
Qed.

Lemma waits_as_refl (source : EventSource) (w : World) : waits_as source w w.
Proof. exists []. split; [now rewrite app_nil_r | constructor]. Qed.

Lemma waits_as_trans (source : EventSource) (w1 w2 w3 : World) :
  waits_as source w1 w2 -> waits_as source w2 w3 -> waits_as source w1 w3.
Proof.
  intros [e1 [T1 S1]] [e2 [T2 S2]]. exists (e1 ++ e2)%list. split.
  - now rewrite T2, T1, app_assoc.
  - unfold sleeps in *. rewrite flat_map_app. now apply Forall_app.
Qed.

Lemma waits_as_same (source source' : EventSource) (w w' : World) :
  retryInterval source' = retryInterval source ->
  DefaultRetryInterval source' = DefaultRetryInterval source ->
  waits_as source' w w' -> waits_as source w w'.
Proof. unfold waits_as. now intros -> ->. Qed.

Lemma waits_as_wait (source : EventSource) (w : World) :
  waits_as source w (waitForRetry source w).
Proof.
  rewrite waitForRetry_backoff. eexists. split; [reflexivity|].
  cbn. repeat constructor.
Qed.

Lemma waits_as_Close (source0 source : EventSource) (w : World) :
  waits_as source0 w (snd (Close source w)).
Proof.
  destruct (Close_spec source w) as [_ [_ T]].
  eexists. split; [exact T|]. destruct (currentReadCloser source); constructor.
Qed.

Lemma Connect_spec (source : EventSource) (w : World) :
  forall err source' w',
  Connect source w = Some (err, source', w') ->
  waits_as source w w'
  /\ ((err = None /\ source' = source /\ w' = w /\ currentReadCloser source <> None)
      \/ (currentReadCloser source = None
          /\ connected source err source'
          /\ List.length (script w') < List.length (script w))).
Proof.
  intros err source' w' H. unfold Connect in H.
  destruct (currentReadCloser source) as [rc|] eqn:E.
  - injection H as <- <- <-. split; [apply waits_as_refl|]. left. now repeat split.
  - destruct (Connect_loop_spec _ _ _ _ _ _ H) as [C [L X]].
    split; [exact X|]. right. now repeat split.
Qed.

(** After a call of [Connect] that succeeds the source holds a stream and
    is not closed, and its intervals and last id are what they were. *)
Lemma Connect_ok (source : EventSource) (w : World) (source' : EventSource) (w' : World) :
  invariant source ->
  Connect source w = Some (None, source', w') ->
  closed source' = false
  /\ currentReadCloser source' <> None
  /\ retryInterval source' = retryInterval source
  /\ DefaultRetryInterval source' = DefaultRetryInterval source
  /\ lastEventID source' = lastEventID source.
Proof.
  intros I H. destruct (Connect_spec _ _ _ _ _ H) as [_ [[_ [-> [_ N]]]|[_ [C _]]]].
  - repeat split; try assumption.
    destruct (closed source) eqn:E; [|reflexivity]. now specialize (I E).
  - inversion C; subst. cbn. repeat split. discriminate.
Qed.

Lemma Connect_failed (source : EventSource) (w : World) (err : error)
      (source' : EventSource) (w' : World) :
  Connect source w = Some (Some err, source', w') ->
  source' = source /\ exists res, err = BadResponseError res.
Proof.
  intros H. destruct (Connect_spec _ _ _ _ _ H) as [_ [[D _]|[_ [C _]]]];
    [discriminate|].
  inversion C; subst. split; [reflexivity | now eexists].
Qed.

(** A read keeps the intervals and the script, and sleeps never. *)
Lemma read_steady (rc : ReadCloser) (source : EventSource) (w : World) :
  forall event err source' w',
  read rc source w = ((event, err), source', w') ->
  retryInterval source' = retryInterval source
  /\ DefaultRetryInterval source' = DefaultRetryInterval source
  /\ lastEventID source' = lastEventID source
  /\ script w' = script w
  /\ waits_as source w w'.
Proof.
  intros event err source' w' H. unfold read in H.
  destruct (readings rc) as [|[e|e|e] later].
  - injection H as <- <- <- <-. repeat split; apply waits_as_refl.
  - injection H as <- <- <- <-. repeat split; apply waits_as_refl.
  - injection H as <- <- <- <-. repeat split; apply waits_as_refl.
  - match type of H with
    | context [Close ?s w] =>
        destruct (Close_spec s w) as [C1 [C2 C3]];
        pose proof (waits_as_Close source s w) as W;
        destruct (Close s w) as [[ce cs] cw]
    end.
    cbn [fst snd] in *. injection H as <- <- <- <-. subst cs. cbn.
    repeat split; [exact C2 | exact W].
Qed.

(** After a read, a source that was not closed still is not, unless
    another goroutine has closed it meanwhile; then it holds no stream and the
    read has failed. *)
Lemma read_closed (rc : ReadCloser) (source : EventSource) (w : World) :
  forall event err source' w',
  closed source = false ->
  read rc source w = ((event, err), source', w') ->
  (closed source' = false /\ (err = None -> currentReadCloser source' <> None))
  \/ (closed source' = true /\ currentReadCloser source' = None /\ err <> None).
Proof.
  intros event err source' w' Hc H. unfold read in H.
  destruct (readings rc) as [|[e|e|e] later].
  - injection H as <- <- <- <-. left. split; [exact Hc | discriminate].
  - injection H as <- <- <- <-. left. split; [exact Hc | discriminate].
  - injection H as <- <- <- <-. left. split; [exact Hc | discriminate].
  - match type of H with
    | context [Close ?s w] =>
        destruct (Close_spec s w) as [C1 _]; destruct (Close s w) as [[ce cs] cw]
    end.
    cbn [fst snd] in *. injection H as <- <- <- <-. subst cs. cbn.
    right. repeat split. discriminate.
Qed.

Lemma invariant_open (source : EventSource) :
  closed source = false -> invariant source.
Proof. unfold invariant. congruence. Qed.

(** After a call of [Connect] that returns, the intervals and the last id
    are what they were. *)
Lemma Connect_steady (source : EventSource) (w : World) :
  forall err source' w',
  Connect source w = Some (err, source', w') ->
  retryInterval source' = retryInterval source
  /\ DefaultRetryInterval source' = DefaultRetryInterval source
  /\ lastEventID source' = lastEventID source.
Proof.
  intros err source' w' H.
  destruct (Connect_spec _ _ _ _ _ H) as [_ [[_ [-> _]]|[_ [C _]]]]; [now repeat split|].
  inversion C; subst; now repeat split.
Qed.

(** What a call of the loop of [Next] that returns leaves behind: the
    configured interval, the retry directive of the event if it has one,
    sleeps of the interval in force at the call only; on [io.EOF] a closed
    source without a stream; on an event, its id. *)
Lemma Next_loop_spec (fuel : nat) : forall source w event err source' w',
  Next_loop fuel source w = Some ((event, err), source', w') ->
  DefaultRetryInterval source' = DefaultRetryInterval source
  /\ retryInterval source'
     = directive_after (returned_event CallNext (event, err)) (retryInterval source)
  /\ waits_as source w w'
  /\ (err = Some (io io_EOF) -> closed source' = true /\ currentReadCloser source' = None)
  /\ (err = None -> lastEventID source' = ID event).
Proof.
  induction fuel as [|fuel IH]; intros source w event err source' w' H; [discriminate|].
  cbn [Next_loop] in H.
  destruct (Connect source w) as [[[e1 s1] w1]|] eqn:EC; [|discriminate].
  destruct (Connect_spec _ _ _ _ _ EC) as [W1 _].
  destruct (Connect_steady _ _ _ _ _ EC) as [Hr [Hd _]].
  destruct e1 as [e1|].
  - injection H as <- <- <- <-.
    destruct (Connect_failed _ _ _ _ _ EC) as [-> [res ->]].
    repeat split; try assumption; discriminate.
  - destruct (currentReadCloser s1) as [rc|]; [|discriminate].
    destruct (read rc s1 w1) as [[[ev er] s2] w2] eqn:ER.
    destruct (read_steady _ _ _ _ _ _ _ ER) as [Rr [Rd [_ [_ W2]]]].
    assert (W12 : waits_as source w w2).
    { apply (waits_as_trans _ _ _ _ W1). now apply (waits_as_same _ s1). }
    destruct er as [[|msg]|].
    + pose proof (Close_spec s2 w2) as [C1 _].
      pose proof (waits_as_Close source s2 w2) as W3.
      destruct (Close s2 w2) as [[ce cs] cw]. cbn [fst snd] in *.
      injection H as <- <- <- <-. subst cs. cbn [returned_event snd directive_after fold_left].
      repeat split; try (cbn; congruence).
      now apply (waits_as_trans _ _ _ _ W12).
    + destruct (closed s2) eqn:Ec2.
      * injection H as <- <- <- <-. cbn [returned_event snd directive_after fold_left].
        repeat split; try congruence; try discriminate.
      * apply IH in H.
        destruct H as [D' [R' [W' [E' N']]]].
        cbn [set_currentReadCloser DefaultRetryInterval retryInterval] in D', R'.
        split; [congruence|]. split; [congruence|].
        split; [|split; assumption].
        apply (waits_as_trans _ _ _ _ W12).
        apply (waits_as_trans _ _ (waitForRetry (set_currentReadCloser None s2) w2)).
        -- apply (waits_as_same _ (set_currentReadCloser None s2));
             [cbn; congruence | cbn; congruence | apply waits_as_wait].
        -- apply (waits_as_same _ (set_currentReadCloser None s2));
             [cbn; congruence | cbn; congruence | exact W'].
    + injection H as <- <- <- <-.
      cbn [returned_event snd fst directive_after fold_left].
      destruct (Z.eqb (Retry ev) 0); cbn; repeat split; try congruence; try discriminate.
Qed.

(** The loop of [Next] keeps the invariant, and returns an event from a
    source that is not closed only. *)
Lemma Next_loop_invariant (fuel : nat) : forall source w event err source' w',
  invariant source ->
  Next_loop fuel source w = Some ((event, err), source', w') ->
  invariant source'
  /\ (err = None -> closed source' = false /\ currentReadCloser source' <> None).
Proof.
  induction fuel as [|fuel IH]; intros source w event err source' w' I H; [discriminate|].
  cbn [Next_loop] in H.
  destruct (Connect source w) as [[[e1 s1] w1]|] eqn:EC; [|discriminate].
  destruct e1 as [e1|].
  - injection H as <- <- <- <-.
    destruct (Connect_failed _ _ _ _ _ EC) as [-> _]. split; [exact I | discriminate].
  - destruct (Connect_ok _ _ _ _ I EC) as [Hc _].
    destruct (currentReadCloser s1) as [rc|]; [|discriminate].
    destruct (read rc s1 w1) as [[[ev er] s2] w2] eqn:ER.
    pose proof (read_closed _ _ _ _ _ _ _ Hc ER) as Rc.
    destruct er as [[|msg]|].
    + pose proof (Close_spec s2 w2) as [C1 _].
      destruct (Close s2 w2) as [[ce cs] cw]. cbn [fst snd] in *.
      injection H as <- <- <- <-. subst cs. split; [|discriminate].
      intros _. reflexivity.
    + destruct (closed s2) eqn:Ec2.
      * injection H as <- <- <- <-. split; [|discriminate].
        destruct Rc as [[Rc _]|[_ [Rc _]]]; [congruence|]. intros _. exact Rc.
      * apply IH in H; [exact H|]. now apply invariant_open.
    + destruct Rc as [[Rc Rs]|[_ [_ Rc]]]; [|congruence].
      specialize (Rs eq_refl).
      injection H as <- <- <- <-.
      destruct (Z.eqb (Retry ev) 0); cbn; (split; [apply invariant_open; exact Rc|]);
        intros _; split; assumption.
Qed.

Lemma waitForRetry_script (source : EventSource) (w : World) :
  script (waitForRetry source w) = script w.
Proof. now rewrite waitForRetry_backoff. Qed.

(** The count of turns does not matter once it covers the script: what
    [Next] returns is what the loop returns on any larger count. *)
Lemma Next_loop_turns (f1 : nat) : forall f2 source w,
  turns source w <= f1 -> turns source w <= f2 ->
  Next_loop f1 source w = Next_loop f2 source w.
Proof.
  assert (Z0 : forall f source w, turns source w <= 0 -> Next_loop f source w = None).
  { intros f source w H. unfold turns in H. destruct f as [|f]; [reflexivity|].
    cbn [Next_loop]. unfold Connect.
    destruct (currentReadCloser source); [lia|].
    destruct (script w); [reflexivity | cbn in H; lia]. }
  induction f1 as [|f1 IH]; intros f2 source w H1 H2.
  - now rewrite (Z0 f2 _ _ H1).
  - destruct f2 as [|f2]; [now rewrite (Z0 (S f1) _ _ H2)|].
    cbn [Next_loop].
    destruct (Connect source w) as [[[e1 s1] w1]|] eqn:EC; [|reflexivity].
    destruct e1 as [e1|]; [reflexivity|].
    destruct (currentReadCloser s1) as [rc|]; [|reflexivity].
    destruct (read rc s1 w1) as [[[ev er] s2] w2] eqn:ER.
    destruct (read_steady _ _ _ _ _ _ _ ER) as [_ [_ [_ [Rs _]]]].
    destruct er as [[|msg]|]; try reflexivity.
    destruct (closed s2); [reflexivity|].
    assert (L : List.length (script w1) + 1 <= turns source w).
    { destruct (Connect_spec _ _ _ _ _ EC) as [_ [[_ [_ [-> N]]]|[_ [_ L]]]].
      - unfold turns. destruct (currentReadCloser source); [lia | congruence].
      - unfold turns. lia. }
    apply IH; unfold turns; cbn [set_currentReadCloser currentReadCloser];
      rewrite waitForRetry_script, Rs; lia.
Qed.

(** [Next] runs the loop on a count that is enough. *)
Lemma Next_turns_enough (source : EventSource) (w : World) (more : nat) :
  closed source = false ->
  Next_loop (S (List.length (script w)) + more) source w = Next source w.
Proof.
  intros H. unfold Next. rewrite H.
  apply Next_loop_turns; unfold turns; destruct (currentReadCloser source); lia.
Qed.

End SessionFacts.

(** ** The event source: what its calls guarantee *)

Section SessionTheorems.

Import Session.

Lemma perform_Next_closed (source : EventSource) (w : World) (n : nat) :
  closed source = true ->
  perform_all (repeat CallNext n) source w
  = Some (repeat (Event0, Some ErrReadFromClosedSource) n, source, w).
Proof.
  intros H. induction n as [|n IH]; [reflexivity|].
  cbn [repeat perform_all perform]. unfold Next. rewrite H, IH. reflexivity.
Qed.

(** C2.  A closed source answers [Next] with the closed-source error at
    once, as often as it is asked, and nothing happens outside: the script
    and the trace of the world stay as they are.  At every turn of the loop
    of [Next], when the stream that [Connect] leaves reports [io.EOF], the
    loop closes the source and returns [io.EOF]; and whenever [Next]
    returns [io.EOF] the source is left closed, with no stream, so that the
    calls of [Next] that follow fail at once.  A [Connect] that is then
    answered with the OK status installs the new stream and clears the
    flag. *)
Theorem Next_closed_source (source : EventSource) (w : World) :
  (closed source = true ->
   forall n, perform_all (repeat CallNext n) source w
             = Some (repeat (Event0, Some ErrReadFromClosedSource) n, source, w))
  /\ (forall fuel s1 w1 rc event s2 w2,
        Connect source w = Some (None, s1, w1) ->
        currentReadCloser s1 = Some rc ->
        read rc s1 w1 = ((event, Some io_EOF), s2, w2) ->
        Next_loop (S fuel) source w
        = Some ((Event0, Some (io io_EOF)),
                mkSource (DefaultRetryInterval source) None (lastEventID source)
                         (retryInterval source) true,
                snd (Close s2 w2)))
  /\ (forall event source' w',
        Next source w = Some ((event, Some (io io_EOF)), source', w') ->
        closed source' = true
        /\ currentReadCloser source' = None
        /\ forall n w'', perform_all (repeat CallNext n) source' w''
                         = Some (repeat (Event0, Some ErrReadFromClosedSource) n, source', w''))
  /\ (forall res rest,
        closed source = true ->
        currentReadCloser source = None ->
        script w = Responds res :: rest ->
        StatusCode res = StatusOK ->
        exists source' w',
          Connect source w = Some (None, source', w')
          /\ closed source' = false
          /\ currentReadCloser source' = Some (NewReadCloser (Body res))).
Proof.
  split; [|split; [|split]].
  - intros H n. now apply perform_Next_closed.
  - intros fuel s1 w1 rc event s2 w2 EC Hrc ER.
    cbn [Next_loop]. rewrite EC, Hrc, ER.
    destruct (Connect_steady _ _ _ _ _ EC) as [Hr [Hd Hl]].
    destruct (read_steady _ _ _ _ _ _ _ ER) as [Rr [Rd [Rl _]]].
    pose proof (Close_spec s2 w2) as [C1 _].
    destruct (Close s2 w2) as [[ce cs] cw]. cbn [fst snd] in *. subst cs.
    now rewrite Rr, Rd, Rl, Hr, Hd, Hl.
  - intros event source' w' H. unfold Next in H.
    destruct (closed source) eqn:Hc; [discriminate|].
    destruct (Next_loop_spec _ _ _ _ _ _ _ H) as [_ [_ [_ [E _]]]].
    destruct (E eq_refl) as [E1 E2]. split; [exact E1|]. split; [exact E2|].
    intros n w''. now apply perform_Next_closed.
  - intros res rest Hc Hs Hw Hok. unfold Connect. rewrite Hs, Hw.
    cbn [Connect_loop]. rewrite Hok. cbn [Z.eqb StatusOK Pos.eqb].
    eexists. eexists. split; [reflexivity|]. split; reflexivity.
Qed.

(** A source that reads the end of its stream, is asked twice more, and is
    connected again. *)
Lemma Next_closed_source_witness :
  Next (mkSource 100 (Some (mkReadCloser [] None)) "2" 0 false) (mkWorld [] [])
  = Some ((Event0, Some (io io_EOF)), mkSource 100 None "2" 0 true, mkWorld [] [BodyClose])
  /\ perform_all (repeat CallNext 2) (mkSource 100 None "2" 0 true)
                 (mkWorld [Responds (mkResponse 200 (mkReadCloser [] None))] [BodyClose])
     = Some (repeat (Event0, Some ErrReadFromClosedSource) 2, mkSource 100 None "2" 0 true,
             mkWorld [Responds (mkResponse 200 (mkReadCloser [] None))] [BodyClose])
  /\ exists source' w',
      Connect (mkSource 100 None "2" 0 true)
              (mkWorld [Responds (mkResponse 200 (mkReadCloser [] None))] [BodyClose])
      = Some (None, source', w')
      /\ closed source' = false
      /\ currentReadCloser source' = Some (NewReadCloser (mkReadCloser [] None)).
Proof.
  split; [|split].
  - apply (proj1 (proj2 (Next_closed_source
                           (mkSource 100 (Some (mkReadCloser [] None)) "2" 0 false)
                           (mkWorld [] [])))
             0 _ _ (mkReadCloser [] None) Event0 _ _ eq_refl eq_refl eq_refl).
  - apply (proj1 (Next_closed_source
                    (mkSource 100 None "2" 0 true)
                    (mkWorld [Responds (mkResponse 200 (mkReadCloser [] None))] [BodyClose]))
             eq_refl 2).
  - apply (proj2 (proj2 (proj2 (Next_closed_source
                    (mkSource 100 None "2" 0 true)
                    (mkWorld [Responds (mkResponse 200 (mkReadCloser [] None))] [BodyClose]))))
             _ _ eq_refl eq_refl eq_refl eq_refl).
Defined.

(** C3.  With no stream held, [Connect] sends a request with the last
    event id and sorts the answer by its status: on 200 it holds the new
    stream, is not closed any more, and returns no error; on 500, 502, 503
    and 504 it closes the body, sleeps the interval and tries again with
    the rest of the script; on any other status it closes the body and
    returns a [BadResponseError] with that response, the source being as it
    was. *)
Theorem Connect_classifies
        (source : EventSource) (w : World) (res : Response) (rest : list attempt) :
  currentReadCloser source = None ->
  script w = Responds res :: rest ->
  Connect source w
  = if Z.eqb (StatusCode res) 200 then
      Some (None,
            mkSource (DefaultRetryInterval source) (Some (NewReadCloser (Body res)))
                     (lastEventID source) (retryInterval source) false,
            mkWorld rest (trace w ++ [Do (lastEventID source)]))
    else if retryable (StatusCode res) then
      Connect source
              (mkWorld rest
                 (trace w ++ [Do (lastEventID source); BodyClose;
                              Sleep (backoff (retryInterval source)
                                             (DefaultRetryInterval source))]))
    else
      Some (Some (BadResponseError res), source,
            mkWorld rest (trace w ++ [Do (lastEventID source); BodyClose])).
Proof.
  intros Hs Hw. unfold Connect at 1. rewrite Hs, Hw. cbn [Connect_loop].
  change StatusOK with 200%Z.
  destruct (Z.eqb (StatusCode res) 200); [reflexivity|].
  change (Z.eqb (StatusCode res) StatusInternalServerError
          || Z.eqb (StatusCode res) StatusBadGateway
          || Z.eqb (StatusCode res) StatusServiceUnavailable
          || Z.eqb (StatusCode res) StatusGatewayTimeout)%bool
    with (retryable (StatusCode res)).
  destruct (retryable (StatusCode res)).
  - rewrite waitForRetry_backoff. unfold Connect. rewrite Hs.
    unfold act. cbn [script trace]. now rewrite <- !app_assoc.
  - unfold act. cbn [script trace]. now rewrite <- !app_assoc.
Qed.

(** A 503, then a 404. *)
Lemma Connect_classifies_witness :
  currentReadCloser (new_source 100) = None
  /\ Connect (new_source 100)
             (mkWorld [Responds (mkResponse 503 (mkReadCloser [] None));
                       Responds (mkResponse 404 (mkReadCloser [] None))] [])
     = Some (Some (BadResponseError (mkResponse 404 (mkReadCloser [] None))), new_source 100,
             mkWorld [] [Do ""; BodyClose; Sleep 100; Do ""; BodyClose]).
Proof.
  split; [reflexivity|].
  rewrite (Connect_classifies
             (new_source 100)
             (mkWorld [Responds (mkResponse 503 (mkReadCloser [] None));
                       Responds (mkResponse 404 (mkReadCloser [] None))] [])
             (mkResponse 503 (mkReadCloser [] None))
             [Responds (mkResponse 404 (mkReadCloser [] None))] eq_refl eq_refl).
  reflexivity.
Defined.

(** C7.  The interval of a wait is the retry directive of the last event
    returned that had one, or else the configured interval when it is not
    zero, or else one second: [waitForRetry] sleeps that interval, every
    sleep of a call of [Connect], [Next] or [Close] is of that interval,
    and when [Next] returns an event with a retry directive the directive
    is in force for the waits of the calls that follow. *)
Theorem waits_follow_directive
        (c : call) (source : EventSource) (w : World) (history : list Event)
        (res : Event * option error) (source' : EventSource) (w' : World) :
  retryInterval source = directive_after history 0 ->
  perform c source w = Some (res, source', w') ->
  waitForRetry source w
  = act (Sleep (backoff (directive_after history 0) (DefaultRetryInterval source))) w
  /\ (exists extra,
        trace w' = (trace w ++ extra)%list
        /\ Forall (eq (backoff (directive_after history 0) (DefaultRetryInterval source)))
                  (sleeps extra))
  /\ retryInterval source' = directive_after (history ++ returned_event c res) 0
  /\ DefaultRetryInterval source' = DefaultRetryInterval source.
Proof.
  intros Hh H. split; [now rewrite waitForRetry_backoff, Hh|].
  rewrite <- Hh. change (exists extra, _) with (waits_as source w w').
  unfold directive_after. rewrite fold_left_app. fold (directive_after history 0).
  rewrite <- Hh.
  destruct c; cbn [perform] in H.
  - destruct (Connect source w) as [[[e1 s1] w1]|] eqn:EC; [|discriminate].
    injection H as <- <- <-.
    destruct (Connect_spec _ _ _ _ _ EC) as [W _].
    destruct (Connect_steady _ _ _ _ _ EC) as [Hr [Hd _]].
    cbn [returned_event fold_left]. now repeat split.
  - unfold Next in H. destruct (closed source).
    + injection H as <- <- <-. cbn [returned_event snd fold_left].
      repeat split. apply waits_as_refl.
    + destruct res as [event err].
      destruct (Next_loop_spec _ _ _ _ _ _ _ H) as [D [R [W _]]].
      now repeat split.
  - pose proof (Close_spec source w) as [C1 _].
    pose proof (waits_as_Close source source w) as W.
    destruct (Close source w) as [[ce cs] cw]. cbn [fst snd] in *.
    injection H as <- <- <-. subst cs. cbn [returned_event fold_left].
    now repeat split.
Qed.

(** The configured interval is 100 ms.  The first answer is a 500, the
    client then fails, and the third answer is a stream whose first event
    has a retry directive of 200 ms: [Next] sleeps 100 ms twice and then
    has 200 ms in force. *)
Lemma waits_follow_directive_witness :
  retryInterval (new_source 100000000) = directive_after [] 0
  /\ perform CallNext (new_source 100000000)
       (mkWorld [Responds (mkResponse 500 (mkReadCloser [] None)); Unreachable;
                 Responds (mkResponse 200
                             (mkReadCloser [Dispatched (mkEvent "3" "" [] 200000000)] None))]
                [])
     = Some ((mkEvent "3" "" [] 200000000, None),
             mkSource 100000000 (Some (mkReadCloser [] None)) "3" 200000000 false,
             mkWorld [] [Do ""; BodyClose; Sleep 100000000; Do ""; Sleep 100000000; Do ""])
  /\ (exists extra,
        [Do ""; BodyClose; Sleep 100000000; Do ""; Sleep 100000000; Do ""]
        = ([] ++ extra)%list
        /\ Forall (eq (backoff (directive_after [] 0) 100000000)) (sleeps extra))
  /\ 200000000%Z = directive_after ([] ++ [mkEvent "3" "" [] 200000000]) 0.
Proof.
  split; [reflexivity|]. split; [reflexivity|].
  destruct (waits_follow_directive
              CallNext (new_source 100000000)
              (mkWorld [Responds (mkResponse 500 (mkReadCloser [] None)); Unreachable;
                        Responds (mkResponse 200
                                    (mkReadCloser [Dispatched (mkEvent "3" "" [] 200000000)]
                                                  None))]
                       [])
              [] _ _ _ eq_refl eq_refl) as [_ [W [R _]]].
  split; [exact W | exact R].
Defined.

Lemma perform_keeps_invariant
      (c : call) (source : EventSource) (w : World)
      (res : Event * option error) (source' : EventSource) (w' : World) :
  invariant source ->
  perform c source w = Some (res, source', w') ->
  invariant source'.
Proof.
  intros I H. destruct c; cbn [perform] in H.
  - destruct (Connect source w) as [[[e1 s1] w1]|] eqn:EC; [|discriminate].
    injection H as <- <- <-.
    destruct e1 as [e1|].
    + now destruct (Connect_failed _ _ _ _ _ EC) as [-> _].
    + destruct (Connect_ok _ _ _ _ I EC) as [Hc _]. now apply invariant_open.
  - unfold Next in H. destruct (closed source) eqn:Hc.
    + now injection H as <- <- <-.
    + destruct res as [event err].
      now destruct (Next_loop_invariant _ _ _ _ _ _ _ I H) as [I' _].
  - pose proof (Close_spec source w) as [C1 _].
    destruct (Close source w) as [[ce cs] cw]. cbn [fst snd] in *.
    injection H as <- <- <-. subst cs. intros _. reflexivity.
Qed.

(** From a source that keeps the invariant, its zero value for one,
    whatever calls are made, a stream is held only while the source is not
    closed. *)
Corollary invariant_always (cs : list call) : forall source w results source' w',
  invariant source ->
  perform_all cs source w = Some (results, source', w') ->
  invariant source'.
Proof.
  induction cs as [|c cs IH]; intros source w results source' w' I H; cbn [perform_all] in H.
  - now injection H as _ <- _.
  - destruct (perform c source w) as [[[r1 s1] w1]|] eqn:E1; [|discriminate].
    destruct (perform_all cs s1 w1) as [[[rs s2] w2]|] eqn:E2; [|discriminate].
    injection H as _ <- _.
    apply (IH _ _ _ _ _ (perform_keeps_invariant _ _ _ _ _ _ I E1) E2).
Qed.

(** C8.  Every call keeps the invariant: a source that holds a stream only
    while it is not closed still does after [Connect], [Next] or [Close].
    So a call that leaves the source closed leaves it without a stream, and
    a call that leaves it with a stream leaves it not closed. *)
Theorem calls_keep_invariant
        (c : call) (source : EventSource) (w : World)
        (res : Event * option error) (source' : EventSource) (w' : World) :
  invariant source ->
  perform c source w = Some (res, source', w') ->
  invariant source'
  /\ (closed source' = true -> currentReadCloser source' = None)
  /\ (currentReadCloser source' <> None -> closed source' = false).
Proof.
  intros I H.
  pose proof (perform_keeps_invariant _ _ _ _ _ _ I H) as I'.
  split; [exact I'|]. split; [exact I'|].
  intros N. destruct (closed source') eqn:E; [|reflexivity].
  now specialize (I' E).
Qed.

(** The end of the stream read by [Next]: the source is closed and the
    stream is gone. *)
Lemma calls_keep_invariant_witness :
  invariant (mkSource 100 (Some (mkReadCloser [] None)) "2" 0 false)
  /\ perform CallNext (mkSource 100 (Some (mkReadCloser [] None)) "2" 0 false)
             (mkWorld [] [])
     = Some ((Event0, Some (io io_EOF)), mkSource 100 None "2" 0 true,
             mkWorld [] [BodyClose])
  /\ invariant (mkSource 100 None "2" 0 true)
  /\ (closed (mkSource 100 None "2" 0 true) = true
      -> currentReadCloser (mkSource 100 None "2" 0 true) = None)
  /\ (currentReadCloser (mkSource 100 None "2" 0 true) <> None
      -> closed (mkSource 100 None "2" 0 true) = false).
Proof.
  split; [discriminate|]. split; [reflexivity|].
  apply (calls_keep_invariant
           CallNext (mkSource 100 (Some (mkReadCloser [] None)) "2" 0 false)
           (mkWorld [] []) (Event0, Some (io io_EOF)) (mkSource 100 None "2" 0 true)
           (mkWorld [] [BodyClose])).
  - discriminate.
  - reflexivity.
Defined.

End SessionTheorems.

(** ** The reader, on any stream *)

Section ReaderAlways.

Lemma cut_split (s : string) (c : ascii) : forall a b,
  cut s c = Some (a, b) -> s = a ++ String c b /\ contains a c = false.
Proof.
  induction s as [|x s IH]; intros a b H; cbn [cut] in H; [discriminate|].
  destruct (Ascii.eqb x c) eqn:E.
  - injection H as <- <-. apply Ascii.eqb_eq in E. subst x. now split.
  - destruct (cut s c) as [[a' b']|]; [|discriminate].
    injection H as <- <-. destruct (IH _ _ eq_refl) as [-> Hc].
    split; [reflexivity|]. cbn [contains]. now rewrite E, Hc.
Qed.

(** The switch keeps the id of an accumulator that has met no [id] line. *)
Lemma set_field_keeps_id (field value : string) (event : Event) (idPresent : bool)
      (last : string) :
  (idPresent = false -> ID event = last) ->
  snd (set_field field value event idPresent) = false ->
  ID (fst (set_field field value event idPresent)) = last.
Proof.
  unfold set_field. intros H.
  destruct (String.eqb field "id"); [discriminate|].
  destruct (String.eqb field "event"); [exact H|].
  destruct (String.eqb field "data"); exact H.
Qed.

Lemma Next_loop_error (fuel : nat) : forall reader event idPresent ev e reader',
  Next_loop fuel reader event idPresent = Some ((ev, Some e), reader') ->
  ev = Event0 /\ e = fault (buf reader)
  /\ reader' = mkReader (lastID reader) (mkBuf "" (fault (buf reader))).
Proof.
  induction fuel as [|fuel IH]; intros reader event idPresent ev e reader' H;
    [discriminate|].
  rewrite Next_loop_S in H. unfold ReadString in H.
  destruct (cut (pending (buf reader)) LF) as [[before after]|].
  - cbn [buf lastID] in H.
    assert (R : forall ev' ip',
               Next_loop fuel (mkReader (lastID reader) (mkBuf after (fault (buf reader))))
                         ev' ip' = Some ((ev, Some e), reader') ->
               ev = Event0 /\ e = fault (buf reader)
               /\ reader' = mkReader (lastID reader) (mkBuf "" (fault (buf reader)))).
    { intros ev' ip' H'. now apply IH in H'. }
    destruct (Nat.eqb (String.length _) 0).
    + destruct (Nat.eqb (List.length (Data event)) 0); [now apply R in H|].
      destruct idPresent; discriminate.
    + destruct (at_is _ 0 ":"); [now apply R in H|].
      destruct (field_value _) as [field value].
      destruct (set_field field value event idPresent) as [ev' ip']. now apply R in H.
  - injection H as <- <- <-. now repeat split.
Qed.

Lemma Next_loop_event (fuel : nat) : forall reader event idPresent ev reader',
  (idPresent = false -> ID event = lastID reader) ->
  Next_loop fuel reader event idPresent = Some ((ev, None), reader') ->
  lastID reader' = ID ev
  /\ fault (buf reader') = fault (buf reader)
  /\ exists consumed,
      pending (buf reader) = consumed ++ pending (buf reader')
      /\ ((consumed = nl /\ Data event <> [])
          \/ exists c, consumed = c ++ nl ++ nl).
Proof.
  induction fuel as [|fuel IH]; intros reader event idPresent ev reader' I H;
    [discriminate|].
  rewrite Next_loop_S in H. unfold ReadString in H.
  destruct (cut (pending (buf reader)) LF) as [[before after]|] eqn:EC; [|discriminate].
  destruct (cut_split _ _ _ _ EC) as [EP _].
  cbn [buf lastID] in H. change (String LF "") with nl in H.
  rewrite slice_drop_nl in H.
  assert (R : forall ev' ip',
             (ip' = false -> ID ev' = lastID reader) ->
             Next_loop fuel (mkReader (lastID reader) (mkBuf after (fault (buf reader))))
                       ev' ip' = Some ((ev, None), reader') ->
             lastID reader' = ID ev
             /\ fault (buf reader') = fault (buf reader)
             /\ exists consumed,
                 pending (buf reader) = consumed ++ pending (buf reader')
                 /\ ((consumed = nl /\ Data event <> [])
                     \/ exists c, consumed = c ++ nl ++ nl)).
  { intros ev' ip' I' H'. apply IH in H'; [|exact I'].
    destruct H' as [L [F [consumed [P E]]]]. cbn [buf pending fault] in *.
    split; [exact L|]. split; [exact F|].
    exists (before ++ nl ++ consumed). split.
    - rewrite EP, P. change (String LF ?s) with (nl ++ s). now rewrite !app_assoc_s.
    - right. destruct E as [[-> Hne]|[c ->]].
      + exists before. reflexivity.
      + exists (before ++ nl ++ c). now rewrite !app_assoc_s. }
  destruct (Nat.eqb (String.length before) 0) eqn:Eb.
  - destruct (Nat.eqb (List.length (Data event)) 0) eqn:Ed.
    + apply (R _ _ I H).
    + assert (Hb : before = "") by (now destruct before).
      assert (Hne : Data event <> []) by (now destruct (Data event)).
      destruct idPresent; injection H as <- <-; cbn [lastID buf fault pending ID].
      * repeat split. exists nl. split; [now rewrite EP, Hb | now left].
      * split; [symmetry; now apply I|]. split; [reflexivity|].
        exists nl. split; [now rewrite EP, Hb | now left].
  - destruct (at_is before 0 ":").
    + apply (R _ _ I H).
    + destruct (field_value before) as [field value].
      pose proof (set_field_keeps_id field value event idPresent (lastID reader) I) as K.
      destruct (set_field field value event idPresent) as [ev' ip']. cbn [fst snd] in K.
      apply (R _ _ K H).
Qed.

End ReaderAlways.

(** X1.  When [Next] returns an error it returns no part of an event: the
    event is [Event{}], the error is the one the source has reported, all
    the bytes that were unread are used up, and the remembered id is the
    one the reader had. *)
Theorem Next_error_discards
        (reader : Reader) (ev : Event) (e : io_error) (reader' : Reader) :
  Next reader = Some ((ev, Some e), reader') ->
  ev = Event0
  /\ e = fault (buf reader)
  /\ reader' = mkReader (lastID reader) (mkBuf "" (fault (buf reader))).
Proof. apply Next_loop_error. Qed.

Lemma Next_error_discards_witness :
  Next (mkReader "7" (mkBuf (wire ["id: 12"; "data: lost"]) (io_failure "reset")))
  = Some ((Event0, Some (io_failure "reset")), mkReader "7" (mkBuf "" (io_failure "reset")))
  /\ Event0 = Event0
  /\ io_failure "reset" = io_failure "reset"
  /\ mkReader "7" (mkBuf "" (io_failure "reset"))
     = mkReader "7" (mkBuf "" (io_failure "reset")).
Proof.
  split; [reflexivity|].
  apply (Next_error_discards
           (mkReader "7" (mkBuf (wire ["id: 12"; "data: lost"]) (io_failure "reset")))
           Event0 (io_failure "reset") (mkReader "7" (mkBuf "" (io_failure "reset")))).
  reflexivity.
Defined.

(** X2.  When [Next] returns an event, on any stream at all, the id the
    reader remembers afterwards is the id of that event; the bytes it has
    used up are a prefix of the unread bytes that ends with a blank line,
    two line feeds in a row, and what follows them is left unread. *)
Theorem Next_event_ends_at_blank_line (reader : Reader) (ev : Event) (reader' : Reader) :
  Next reader = Some ((ev, None), reader') ->
  lastID reader' = ID ev
  /\ fault (buf reader') = fault (buf reader)
  /\ exists c, pending (buf reader) = c ++ nl ++ nl ++ pending (buf reader').
Proof.
  intros H. unfold Next in H.
  apply Next_loop_event in H; [|reflexivity].
  destruct H as [L [F [consumed [P E]]]].
  split; [exact L|]. split; [exact F|].
  destruct E as [[_ E]|[c ->]]; [now cbn in E|].
  exists c. now rewrite P, !app_assoc_s.
Qed.

Lemma Next_event_ends_at_blank_line_witness :
  Next (reading "7" (wire ["id: 12"; ""; "data: x"; ""; "data: y"]))
  = Some ((mkEvent "12" "" (bytes "x"), None), reading "12" (wire ["data: y"]))
  /\ lastID (reading "12" (wire ["data: y"])) = ID (mkEvent "12" "" (bytes "x"))
  /\ fault (buf (reading "12" (wire ["data: y"])))
     = fault (buf (reading "7" (wire ["id: 12"; ""; "data: x"; ""; "data: y"])))
  /\ exists c, pending (buf (reading "7" (wire ["id: 12"; ""; "data: x"; ""; "data: y"])))
               = c ++ nl ++ nl ++ pending (buf (reading "12" (wire ["data: y"]))).
Proof.
  split; [reflexivity|].
  apply (Next_event_ends_at_blank_line
           (reading "7" (wire ["id: 12"; ""; "data: x"; ""; "data: y"]))
           (mkEvent "12" "" (bytes "x")) (reading "12" (wire ["data: y"]))).
  reflexivity.
Defined.


Section ReaderBlocks.

Variable flt : io_error.

Lemma turn_passed_over (st : Event * bool) (l : string) :
  passed_over l = true -> turn st l = st.
Proof.
  unfold passed_over, turn. intros H.
  apply andb_true_iff in H as [_ H].
  destruct (Nat.eqb (String.length l) 0); [reflexivity|].
  destruct (at_is l 0 ":"); [reflexivity|]. cbn [orb] in H.
  destruct (field_value l) as [field value]. cbn [fst] in H.
  apply andb_true_iff in H as [H H3]. apply andb_true_iff in H as [H1 H2].
  unfold set_field.
  destruct (String.eqb field "id"); [discriminate|].
  destruct (String.eqb field "event"); [discriminate|].
  destruct (String.eqb field "data"); [discriminate|].
  now destruct st.
Qed.

Lemma last_value_id (ls : list string) : last_value "id" ls = explicit_id ls.
Proof.
  induction ls as [|l ls IH]; [reflexivity|].
  cbn [last_value explicit_id]. now rewrite IH.
Qed.

Lemma turn_name (st : Event * bool) (l : string) :
  Name (fst (turn st l))
  = if is_field "event" l then snd (field_value l) else Name (fst st).
Proof.
  rewrite turn_cases.
  destruct (is_field "id" l) eqn:Ei.
  - now rewrite (is_field_distinct "id" "event" l) by (discriminate || assumption).
  - destruct (is_field "event" l); [reflexivity|].
    now destruct (is_field "data" l).
Qed.

Lemma fold_turn_name (ls : list string) : forall st,
  Name (fst (fold_left turn ls st))
  = match last_value "event" ls with Some v => v | None => Name (fst st) end.
Proof.
  induction ls as [|l ls IH]; intros st; cbn [fold_left last_value]; [reflexivity|].
  rewrite IH, turn_name.
  destruct (last_value "event" ls); [reflexivity|].
  now destruct (is_field "event" l).
Qed.

Lemma fold_turn_data (ls : list string) : forall st,
  Data (fst (fold_left turn ls st))
  = (Data (fst st) ++ concat (map (fun v => bytes (v ++ nl)) (data_values ls)))%list.
Proof.
  unfold data_values.
  induction ls as [|l ls IH]; intros st; cbn [fold_left filter].
  - cbn. now rewrite app_nil_r.
  - rewrite IH, turn_data.
    destruct (is_field "data" l); [|reflexivity].
    cbn [map concat]. now rewrite <- app_assoc.
Qed.

(** Values, each followed by a line feed, are the values joined by line
    feeds and one line feed more. *)
Lemma join_values (vs : list string) :
  vs <> [] ->
  concat (map (fun v => bytes (v ++ nl)) vs) = (bytes (String.concat nl vs) ++ [bLF])%list.
Proof.
  induction vs as [|v vs IH]; intros H; [congruence|].
  destruct vs as [|v' vs].
  - cbn [map concat String.concat]. now rewrite app_nil_r, bytes_app, bytes_nl.
  - cbn [map concat]. cbn [map concat] in IH. rewrite IH by discriminate.
    change (String.concat nl (v :: v' :: vs)) with (v ++ nl ++ String.concat nl (v' :: vs)).
    now rewrite !bytes_app, bytes_nl, <- !app_assoc.
Qed.

Lemma data_values_nonempty (ls : list string) :
  existsb (is_field "data") ls = true -> data_values ls <> [].
Proof.
  unfold data_values.
  induction ls as [|l ls IH]; intros H; [discriminate|].
  cbn [existsb filter] in *. destruct (is_field "data" l); [discriminate|].
  now apply IH.
Qed.

Lemma Next_block_event (b : list string) (last rest : string) :
  block_ok b = true ->
  Next (mkReader last (mkBuf (wire b ++ nl ++ rest) flt))
  = Some ((mkEvent (match last_value "id" b with Some v => v | None => last end)
                   (match last_value "event" b with Some v => v | None => "" end)
                   (bytes (String.concat nl (data_values b))), None),
          mkReader (match last_value "id" b with Some v => v | None => last end)
                   (mkBuf rest flt)).
Proof.
  intros H. rewrite (Next_block_ok flt b last rest H).
  unfold block_ok in H. apply andb_true_iff in H as [_ Hd].
  unfold dispatch.
  destruct (fold_turn_id b (mkEvent last "" [], false)) as [Hid Hflag].
  rewrite fold_turn_name, fold_turn_data, Hid, Hflag, last_value_id.
  cbn [fst snd ID Name Data app orb].
  rewrite (join_values _ (data_values_nonempty _ Hd)), firstn_drop_last.
  now destruct (explicit_id b).
Qed.

End ReaderBlocks.

(** X3.  A comment, and a line whose field is none of [id], [event] and
    [data], change nothing: with such a line after lines that [Next] reads
    without dispatching, [Next] returns what it returns without it. *)
Theorem Next_passes_over
        (flt : io_error) (before : list string) (l : string) (last rest : string) :
  forallb (fun l => negb (contains l LF)) before = true ->
  quiet before (mkEvent last "" [], false) = true ->
  contains l LF = false ->
  passed_over l = true ->
  Next (mkReader last (mkBuf (wire (before ++ [l]) ++ rest) flt))
  = Next (mkReader last (mkBuf (wire before ++ rest) flt)).
Proof.
  intros Hf Hq Hl Hp. unfold Next. cbn [lastID].
  change (Next_loop (S (String.length (pending (buf ?r)))) ?r ?e ?b)
    with (run r (fst (e, b)) (snd (e, b))).
  rewrite wire_app, app_assoc_s, !(run_quiet flt before) by assumption.
  cbn [wire fold_right]. rewrite !app_assoc_s. cbn [append].
  rewrite (run_line flt) by exact Hl.
  rewrite (turn_passed_over _ _ Hp).
  unfold passed_over in Hp. apply andb_true_iff in Hp as [Hp _].
  apply negb_true_iff in Hp. now rewrite Hp.
Qed.

Lemma Next_passes_over_witness :
  Next (reading "7" (wire (["data: a"] ++ [": keep-alive"]) ++ wire ["data: b"; ""]))
  = Next (reading "7" (wire ["data: a"] ++ wire ["data: b"; ""]))
  /\ Next (reading "7" (wire (["data: a"] ++ ["retry: 10"]) ++ wire ["data: b"; ""]))
     = Some ((mkEvent "7" "" (bytes ("a" ++ nl ++ "b")), None), reading "7" "").
Proof.
  split.
  - apply (Next_passes_over io_EOF ["data: a"] ": keep-alive" "7" (wire ["data: b"; ""])
             eq_refl eq_refl eq_refl eq_refl).
  - etransitivity;
      [apply (Next_passes_over io_EOF ["data: a"] "retry: 10" "7" (wire ["data: b"; ""])
                eq_refl eq_refl eq_refl eq_refl)
      | reflexivity].
Defined.

(** X4.  On the block of an event, whatever was read before it, [Next]
    returns this event: its id is the value of the last [id] line, or the
    remembered id; its name is the value of the last [event] line, or empty,
    for the name of an earlier event is not kept; its data are the values
    of the [data] lines, in order, with one line feed between two of them. *)
Theorem Next_on_block (flt : io_error) (b : list string) (last rest : string) :
  block_ok b = true ->
  Next (mkReader last (mkBuf (wire b ++ nl ++ rest) flt))
  = Some ((mkEvent (match last_value "id" b with Some v => v | None => last end)
                   (match last_value "event" b with Some v => v | None => "" end)
                   (bytes (String.concat nl (data_values b))), None),
          mkReader (match last_value "id" b with Some v => v | None => last end)
                   (mkBuf rest flt)).
Proof. apply Next_block_event. Qed.

Lemma Next_on_block_witness :
  block_ok ["event: a"; "data: one"; "event: b"; "data"; "data:  two"] = true
  /\ Next (reading "7" (wire ["event: a"; "data: one"; "event: b"; "data"; "data:  two"]
                        ++ nl ++ "data: next"))
     = Some ((mkEvent "7" "b" (bytes ("one" ++ nl ++ nl ++ " two")), None),
             reading "7" "data: next").
Proof.
  split; [reflexivity|].
  apply (Next_on_block io_EOF ["event: a"; "data: one"; "event: b"; "data"; "data:  two"]
           "7" "data: next" eq_refl).
Defined.

(** ** Encoded events on a stream *)

Section EncodedStream.

Lemma Next_Encode (flt : io_error) (event : Event) (last rest : string) :
  plain_event event = true ->
  Next (mkReader last (mkBuf (Encode event ++ rest) flt))
  = Some ((event, None), mkReader (ID event) (mkBuf rest flt)).
Proof.
  unfold plain_event. intros H. apply andb_true_iff in H as [Hid Hname].
  apply negb_true_iff in Hid, Hname.
  rewrite Encode_lines, !app_assoc_s, Next_block.
  - rewrite event_lines_turn. unfold dispatch. cbn [fst snd ID Name Data].
    rewrite firstn_drop_last. now destruct event.
  - now apply event_lines_free.
  - apply event_lines_quiet.
  - rewrite event_lines_turn. cbn [fst Data]. now destruct (Data event).
Qed.

Lemma field_value_free (line : string) :
  contains line LF = false -> contains (snd (field_value line)) LF = false.
Proof.
  intros H. unfold field_value, strings_SplitN2.
  destruct (cut line ":") as [[f v]|] eqn:E; [|reflexivity].
  destruct (cut_split _ _ _ _ E) as [-> _].
  rewrite contains_app in H. apply orb_false_iff in H as [_ H].
  cbn [contains] in H. apply orb_false_iff in H as [_ H].
  destruct v as [|c v]; [reflexivity|].
  change (Nat.ltb 0 (String.length (String c v))) with true. cbv iota.
  unfold at_is. cbn [get]. destruct (Ascii.eqb c " "); cbn [snd]; [|exact H].
  rewrite slice_tail. cbn [contains] in H. now apply orb_false_iff in H as [_ H].
Qed.

Lemma set_field_plain (field value : string) (event : Event) (idPresent : bool) :
  contains value LF = false ->
  plain_event event = true ->
  plain_event (fst (set_field field value event idPresent)) = true.
Proof.
  unfold plain_event, set_field. intros Hv H.
  apply andb_true_iff in H as [H1 H2].
  destruct (String.eqb field "id"); cbn [fst ID Name]; [now rewrite Hv, H2|].
  destruct (String.eqb field "event"); cbn [fst ID Name]; [now rewrite Hv, H1|].
  destruct (String.eqb field "data"); cbn [fst ID Name]; now rewrite H1, H2.
Qed.

Lemma Next_loop_plain (fuel : nat) : forall reader event idPresent ev reader',
  plain_event event = true ->
  Next_loop fuel reader event idPresent = Some ((ev, None), reader') ->
  plain_event ev = true.
Proof.
  induction fuel as [|fuel IH]; intros reader event idPresent ev reader' P H;
    [discriminate|].
  rewrite Next_loop_S in H. unfold ReadString in H.
  destruct (cut (pending (buf reader)) LF) as [[before after]|] eqn:EC; [|discriminate].
  destruct (cut_split _ _ _ _ EC) as [_ Hb].
  cbn [buf lastID] in H. change (String LF "") with nl in H.
  rewrite slice_drop_nl in H.
  destruct (Nat.eqb (String.length before) 0).
  - destruct (Nat.eqb (List.length (Data event)) 0); [now apply IH in H|].
    destruct idPresent; injection H as <- _; exact P.
  - destruct (at_is before 0 ":"); [now apply IH in H|].
    pose proof (field_value_free before Hb) as Hv.
    destruct (field_value before) as [field value]. cbn [snd] in Hv.
    pose proof (set_field_plain field value event idPresent Hv P) as P'.
    destruct (set_field field value event idPresent) as [ev' ip']. now apply IH in H.
Qed.

Lemma last_map_ID (events : list Event) : forall event last,
  List.last (map ID (event :: events)) last = List.last (map ID events) (ID event).
Proof.
  induction events as [|e events IH]; intros event last; [reflexivity|].
  change (List.last (map ID (event :: e :: events)) last)
    with (List.last (map ID (e :: events)) last).
  now rewrite (IH e last), (IH e (ID event)).
Qed.

Lemma Next_times_Encode (flt : io_error) (events : list Event) : forall last rest,
  forallb plain_event events = true ->
  Next_times (List.length events) (mkReader last (mkBuf (Encode_all events ++ rest) flt))
  = (map (fun event => (event, None)) events,
     mkReader (List.last (map ID events) last) (mkBuf rest flt)).
Proof.
  induction events as [|event events IH]; intros last rest H; [reflexivity|].
  cbn [forallb] in H. apply andb_true_iff in H as [He Hes].
  cbn [Encode_all fold_right List.length]. fold (Encode_all events).
  rewrite app_assoc_s.
  rewrite (Next_times_S _ _ _ _ (Next_Encode flt event last _ He)).
  rewrite (IH (ID event) rest Hes). cbn [fst snd].
  now rewrite last_map_ID.
Qed.

End EncodedStream.

(** X5.  Events whose ids and names hold no line feed, encoded one after
    the other, are read back one by one and in order by as many calls of
    [Next], whatever follows them on the stream; the reader ends with the id
    of the last of them. *)
Theorem Next_times_Encode_all
        (flt : io_error) (events : list Event) (last rest : string) :
  forallb plain_event events = true ->
  Next_times (List.length events) (mkReader last (mkBuf (Encode_all events ++ rest) flt))
  = (map (fun event => (event, None)) events,
     mkReader (List.last (map ID events) last) (mkBuf rest flt)).
Proof. apply Next_times_Encode. Qed.

Lemma Next_times_Encode_all_witness :
  forallb plain_event [mkEvent "1" "" (bytes "hello"); mkEvent "" "bye" (bytes nl)] = true
  /\ Next_times 2 (reading "7" (Encode_all [mkEvent "1" "" (bytes "hello");
                                            mkEvent "" "bye" (bytes nl)] ++ "id: 3"))
     = ([(mkEvent "1" "" (bytes "hello"), None); (mkEvent "" "bye" (bytes nl), None)],
        reading "" "id: 3").
Proof.
  split; [reflexivity|].
  apply (Next_times_Encode_all
           io_EOF [mkEvent "1" "" (bytes "hello"); mkEvent "" "bye" (bytes nl)] "7" "id: 3"
           eq_refl).
Defined.

(** X6.  Two events whose ids and names hold no line feed and that are
    encoded to the same bytes are the same event. *)
Theorem Encode_injective (event1 event2 : Event) :
  plain_event event1 = true ->
  plain_event event2 = true ->
  Encode event1 = Encode event2 ->
  event1 = event2.
Proof.
  intros P1 P2 E.
  pose proof (Next_Encode io_EOF event1 "" "" P1) as N1.
  pose proof (Next_Encode io_EOF event2 "" "" P2) as N2.
  rewrite E, N2 in N1. now injection N1.
Qed.

Lemma Encode_injective_witness :
  plain_event (mkEvent "1" "a" (bytes "x")) = true
  /\ Encode (mkEvent "1" "a" (bytes "x")) = Encode (mkEvent "1" "a" (bytes "x"))
  /\ mkEvent "1" "a" (bytes "x") = mkEvent "1" "a" (bytes "x").
Proof.
  split; [reflexivity|]. split; [reflexivity|].
  apply (Encode_injective (mkEvent "1" "a" (bytes "x")) (mkEvent "1" "a" (bytes "x"))
           eq_refl eq_refl eq_refl).
Defined.

(** Without that, they need not be: a line feed in an id can pass for the
    end of the id line. *)
Example Encode_not_injective :
  Encode (mkEvent ("1" ++ nl ++ "event: a") "b" (bytes "x"))
  = wire ["id: 1"; "event: a"; "event: b"; "data: x"; ""].
Proof. reflexivity. Qed.

(** X7.  An event that [Next] returns from a reader whose remembered id
    holds no line feed has no line feed in its id nor in its name, so that
    encoded again and read again, by any reader, it comes back as it is. *)
Theorem Next_then_Encode
        (reader : Reader) (ev : Event) (reader' : Reader)
        (flt : io_error) (last rest : string) :
  contains (lastID reader) LF = false ->
  Next reader = Some ((ev, None), reader') ->
  plain_event ev = true
  /\ Next (mkReader last (mkBuf (Encode ev ++ rest) flt))
     = Some ((ev, None), mkReader (ID ev) (mkBuf rest flt)).
Proof.
  intros Hl H. unfold Next in H.
  assert (P : plain_event ev = true).
  { eapply Next_loop_plain; [|exact H]. unfold plain_event. cbn [ID Name]. now rewrite Hl. }
  split; [exact P | now apply Next_Encode].
Qed.

Lemma Next_then_Encode_witness :
  contains (lastID (reading "7" (wire ["id:12"; "data:  x:y"; "data"; ""]))) LF = false
  /\ Next (reading "7" (wire ["id:12"; "data:  x:y"; "data"; ""]))
     = Some ((mkEvent "12" "" (bytes (" x:y" ++ nl)), None), reading "12" "")
  /\ plain_event (mkEvent "12" "" (bytes (" x:y" ++ nl))) = true
  /\ Next (reading "" (Encode (mkEvent "12" "" (bytes (" x:y" ++ nl))) ++ ""))
     = Some ((mkEvent "12" "" (bytes (" x:y" ++ nl)), None), reading "12" "").
Proof.
  split; [reflexivity|]. split; [reflexivity|].
  apply (Next_then_Encode (reading "7" (wire ["id:12"; "data:  x:y"; "data"; ""]))
           (mkEvent "12" "" (bytes (" x:y" ++ nl))) (reading "12" "") io_EOF "" ""
           eq_refl eq_refl).
Defined.

(** ** Writing to a destination that fails *)

Section WriteFaults.

Lemma first_fault_app (a b : list (option io_error)) :
  first_fault (a ++ b)
  = match first_fault a with Some err => Some err | None => first_fault b end.
Proof.
  induction a as [|[err|] a IH]; cbn [app first_fault]; [reflexivity | reflexivity | exact IH].
Qed.

Lemma firstn_plus {A : Type} (n m : nat) : forall l : list A,
  firstn (n + m) l = (firstn n l ++ firstn m (skipn n l))%list.
Proof.
  induction n as [|n IH]; intros l; [reflexivity|].
  destruct l as [|x l]; cbn [Nat.add firstn skipn app].
  - now rewrite firstn_nil.
  - now rewrite IH.
Qed.

Lemma skipn_plus {A : Type} (n m : nat) : forall l : list A,
  skipn (n + m) l = skipn m (skipn n l).
Proof.
  induction n as [|n IH]; intros l; [reflexivity|].
  destruct l as [|x l]; cbn [Nat.add skipn]; [now rewrite skipn_nil | apply IH].
Qed.

Lemma wrote_Fprintf (d : Writer) (text : string) :
  text <> "" -> wrote 1 text d (Fprintf d text).
Proof.
  intros Ht. unfold wrote, Fprintf.
  destruct (faults d) as [|[err|] later]; cbn [fst snd written faults firstn skipn first_fault].
  - now repeat split.
  - split; [reflexivity|]. exists "", text. now rewrite app_empty_r.
  - now repeat split.
Qed.

(** One write after another, the second being made when the first has not
    failed. *)
Lemma wrote_then (n1 n2 : nat) (t1 t2 : string) (d : Writer)
      (r1 r2 : Writer * option io_error) :
  wrote n1 t1 d r1 ->
  (snd r1 = None -> wrote n2 t2 (fst r1) r2) ->
  (snd r1 <> None -> r2 = r1) ->
  t2 <> "" ->
  wrote (n1 + n2) (t1 ++ t2) d r2.
Proof.
  intros [E1 W1] H2 H3 Ht. unfold wrote.
  rewrite firstn_plus, first_fault_app, <- E1.
  destruct (snd r1) as [err|] eqn:S1.
  - rewrite (H3 ltac:(discriminate)), S1. split; [reflexivity|].
    destruct W1 as [p [q [-> [Hq Hw]]]].
    exists p, (q ++ t2). rewrite app_assoc_s. repeat split; try assumption.
    destruct q; [congruence | discriminate].
  - destruct W1 as [Hw Hf]. destruct (H2 eq_refl) as [E2 W2].
    rewrite Hf in E2. split; [exact E2|].
    destruct (snd r2).
    + destruct W2 as [p [q [-> [Hq Hw2]]]].
      exists (t1 ++ p), q. rewrite Hw2, Hw, !app_assoc_s. now repeat split.
    + destruct W2 as [Hw2 Hf2]. rewrite Hw2, Hw, Hf2, Hf, skipn_plus, app_assoc_s.
      now split.
Qed.

Lemma data_line_nl_nonempty (line : list byte) (s : string) : data_line line ++ nl ++ s <> "".
Proof. unfold data_line. destruct (Nat.eqb (List.length line) 0); discriminate. Qed.

Lemma wrote_lines (lines : list (list byte)) : forall d,
  lines <> [] ->
  wrote (List.length lines) (wire (map data_line lines)) d (write_lines d lines).
Proof.
  induction lines as [|line lines IH]; intros d Hne; [congruence|].
  cbn [write_lines map wire fold_right List.length]. fold (wire (map data_line lines)).
  assert (F : wrote 1 (data_line line ++ nl) d
                    (if Nat.eqb (List.length line) 0 then Fprintf d ("data" ++ nl)
                     else Fprintf d ("data: " ++ str line ++ nl))).
  { unfold data_line. destruct (Nat.eqb (List.length line) 0).
    - now apply wrote_Fprintf.
    - rewrite app_assoc_s. now apply wrote_Fprintf. }
  destruct (if Nat.eqb (List.length line) 0 then Fprintf d ("data" ++ nl)
            else Fprintf d ("data: " ++ str line ++ nl)) as [d1 e1].
  destruct lines as [|line' lines].
  - cbn [write_lines map wire fold_right List.length] in *.
    rewrite app_empty_r in *. now destruct e1.
  - change (S (List.length (line' :: lines))) with (1 + List.length (line' :: lines)).
    rewrite <- app_assoc_s.
    apply (wrote_then _ _ _ _ _ (d1, e1)); [exact F | | |].
    + cbn [fst snd]. intros ->. apply IH. discriminate.
    + cbn [snd]. destruct e1; [reflexivity | congruence].
    + cbn [map wire fold_right]. apply data_line_nl_nonempty.
Qed.

Lemma wrote_Write (event : Event) (d : Writer) :
  wrote (3 + List.length (bytes_Split (Data event) bLF)) (Encode event) d (Write event d).
Proof.
  assert (T : Encode event
              = ("id: " ++ ID event ++ nl)
                ++ (("event: " ++ Name event ++ nl)
                    ++ (wire (map data_line (bytes_Split (Data event) bLF)) ++ nl))).
  { rewrite Encode_lines. unfold event_lines. cbn [wire fold_right].
    now rewrite !app_assoc_s. }
  rewrite T. clear T.
  replace (3 + List.length (bytes_Split (Data event) bLF))
    with (1 + (1 + (List.length (bytes_Split (Data event) bLF) + 1))) by lia.
  unfold Write.
  pose proof (wrote_Fprintf d ("id: " ++ ID event ++ nl) ltac:(discriminate)) as F1.
  destruct (Fprintf d ("id: " ++ ID event ++ nl)) as [d1 e1].
  apply (wrote_then _ _ _ _ _ (d1, e1)); [exact F1 | | | discriminate].
  2: { cbn [snd]. destruct e1; [reflexivity | congruence]. }
  cbn [fst snd]. intros ->.
  pose proof (wrote_Fprintf d1 ("event: " ++ Name event ++ nl) ltac:(discriminate)) as F2.
  destruct (Fprintf d1 ("event: " ++ Name event ++ nl)) as [d2 e2].
  apply (wrote_then _ _ _ _ _ (d2, e2)); [exact F2 | | | ].
  3: { destruct (wire _); discriminate. }
  2: { cbn [snd]. destruct e2; [reflexivity | congruence]. }
  cbn [fst snd]. intros ->.
  pose proof (wrote_lines (bytes_Split (Data event) bLF) d2
                          (bytes_Split_nonempty _ _)) as F3.
  destruct (write_lines d2 (bytes_Split (Data event) bLF)) as [d3 e3].
  apply (wrote_then _ _ _ _ _ (d3, e3)); [exact F3 | | | discriminate].
  - cbn [fst snd]. intros ->. now apply wrote_Fprintf.
  - cbn [snd]. destruct e3; [reflexivity | congruence].
Qed.

End WriteFaults.

(** X8.  [Write] calls the destination once for the id line, once for the
    event line, once for each data line and once for the blank line, and
    stops at the first of these calls that fails: the error it returns is
    the first fault of these calls, or none.  What the destination has
    received by then is the beginning of what [Encode] returns, all of it
    when and only when there is no error. *)
Theorem Write_returns_first_fault (event : Event) (d : Writer) :
  snd (Write event d)
  = first_fault (firstn (3 + List.length (bytes_Split (Data event) bLF)) (faults d))
  /\ exists p q,
      Encode event = p ++ q
      /\ written (fst (Write event d)) = written d ++ p
      /\ (q = "" <-> snd (Write event d) = None).
Proof.
  destruct (wrote_Write event d) as [E W]. split; [exact E|].
  destruct (snd (Write event d)) as [err|].
  - destruct W as [p [q [Ht [Hq Hw]]]]. exists p, q. repeat split; try assumption.
    + intros ->. congruence.
    + discriminate.
  - destruct W as [Hw _]. exists (Encode event), "".
    rewrite app_empty_r. now repeat split.
Qed.

(** ** The event source: requests, errors, reconnection *)

Section SessionMore.

Import Session.

Lemma acts_as_refl (source : EventSource) (w : World) : acts_as source w w.
Proof.
  exists []. split; [now rewrite app_nil_r|]. split; [constructor|].
  exists []. now split.
Qed.

Lemma acts_as_trans (source : EventSource) (w1 w2 w3 : World) :
  acts_as source w1 w2 -> acts_as source w2 w3 -> acts_as source w1 w3.
Proof.
  intros [e1 [T1 [F1 [u1 [S1 L1]]]]] [e2 [T2 [F2 [u2 [S2 L2]]]]].
  exists (e1 ++ e2)%list. split; [now rewrite T2, T1, app_assoc|].
  split; [now apply Forall_app|].
  exists (u1 ++ u2)%list. split; [now rewrite S1, S2, app_assoc|].
  unfold requests in *. now rewrite flat_map_app, !List.length_app, L1, L2.
Qed.

Lemma acts_as_same (source source' : EventSource) (w w' : World) :
  lastEventID source' = lastEventID source ->
  retryInterval source' = retryInterval source ->
  DefaultRetryInterval source' = DefaultRetryInterval source ->
  acts_as source' w w' -> acts_as source w w'.
Proof. unfold acts_as. now intros -> -> ->. Qed.

(** Actions that use up no answer. *)
Lemma acts_as_quiet (source : EventSource) (w : World) (extra : list action) :
  Forall (fun a => a = BodyClose
                   \/ a = Sleep (backoff (retryInterval source)
                                         (DefaultRetryInterval source))) extra ->
  acts_as source w (mkWorld (script w) (trace w ++ extra)).
Proof.
  intros H. exists extra. split; [reflexivity|]. split.
  - eapply Forall_impl; [|exact H]. cbn. intros a [->| ->]; auto.
  - exists []. split; [reflexivity|]. cbn [List.length].
    induction H as [|a l [->| ->] _ IH]; [reflexivity | exact IH | exact IH].
Qed.

Lemma acts_as_wait (source : EventSource) (w : World) :
  acts_as source w (waitForRetry source w).
Proof.
  rewrite waitForRetry_backoff. apply acts_as_quiet. constructor; [now right | constructor].
Qed.

Lemma acts_as_Close (source0 source : EventSource) (w : World) :
  acts_as source0 w (snd (Close source w)).
Proof.
  destruct (Close_spec source w) as [_ [S T]].
  destruct (Close source w) as [[ce cs] [cscript ctrace]]. cbn [fst snd script trace] in *.
  subst cscript ctrace. apply acts_as_quiet.
  destruct (currentReadCloser source); [constructor; [now left | constructor] | constructor].
Qed.

Lemma Connect_loop_acts (answers : list attempt) (source : EventSource) :
  forall done err source' w',
  Connect_loop answers source done = Some (err, source', w') ->
  acts_as source (mkWorld answers done) w'
  /\ forall res, err = Some (BadResponseError res) -> In (Responds res) answers.
Proof.
  induction answers as [|answer answers IH]; intros done err source' w' H; [discriminate|].
  cbn [Connect_loop] in H.
  assert (One : acts_as source (mkWorld (answer :: answers) done)
                        (mkWorld answers (done ++ [Do (lastEventID source)]))).
  { exists [Do (lastEventID source)]. split; [reflexivity|].
    split; [constructor; [now left | constructor]|]. exists [answer]. now split. }
  assert (Again : forall w1,
             acts_as source (mkWorld answers (done ++ [Do (lastEventID source)])) w1 ->
             script w1 = answers ->
             Connect_loop answers source (trace w1) = Some (err, source', w') ->
             acts_as source (mkWorld (answer :: answers) done) w'
             /\ forall res, err = Some (BadResponseError res) ->
                            In (Responds res) (answer :: answers)).
  { intros w1 A1 S1 H1. destruct (IH _ _ _ _ H1) as [A2 I2]. split.
    - apply (acts_as_trans _ _ _ _ One). apply (acts_as_trans _ _ _ _ A1).
      destruct w1 as [s1 t1]. cbn [script trace] in *. now subst s1.
    - intros res E. right. now apply I2. }
  destruct answer as [|res].
  - apply (Again (waitForRetry source (act (Do (lastEventID source)) (mkWorld answers done))));
      [apply acts_as_wait | now rewrite waitForRetry_script | exact H].
  - destruct (Z.eqb (StatusCode res) StatusOK).
    + injection H as <- <- <-. split; [exact One | discriminate].
    + destruct (Z.eqb (StatusCode res) StatusInternalServerError
                || Z.eqb (StatusCode res) StatusBadGateway
                || Z.eqb (StatusCode res) StatusServiceUnavailable
                || Z.eqb (StatusCode res) StatusGatewayTimeout)%bool.
      * apply (Again (waitForRetry source
                        (act BodyClose (act (Do (lastEventID source))
                                            (mkWorld answers done)))));
          [| now rewrite waitForRetry_script | exact H].
        apply (acts_as_trans _ _ (act BodyClose (act (Do (lastEventID source))
                                                     (mkWorld answers done))));
          [|apply acts_as_wait].
        apply (acts_as_quiet source (mkWorld answers (done ++ [Do (lastEventID source)]))
                             [BodyClose]).
        constructor; [now left | constructor].
      * injection H as <- <- <-. split.
        -- apply (acts_as_trans _ _ _ _ One).
           apply (acts_as_quiet source (mkWorld answers (done ++ [Do (lastEventID source)]))
                                [BodyClose]).
           constructor; [now left | constructor].
        -- intros res' E. injection E as <-. now left.
Qed.

Lemma Connect_acts (source : EventSource) (w : World) :
  forall err source' w',
  Connect source w = Some (err, source', w') ->
  acts_as source w w'
  /\ forall res, err = Some (BadResponseError res) -> In (Responds res) (script w).
Proof.
  intros err source' w' H. unfold Connect in H.
  destruct (currentReadCloser source).
  - injection H as <- <- <-. split; [apply acts_as_refl | discriminate].
  - destruct w as [s t]. now apply Connect_loop_acts in H.
Qed.

Lemma read_acts (rc : ReadCloser) (source : EventSource) (w : World) :
  forall event err source' w',
  read rc source w = ((event, err), source', w') ->
  acts_as source w w' /\ (err <> None -> event = Event0).
Proof.
  intros event err source' w' H. unfold read in H.
  destruct (readings rc) as [|[e|e|e] later].
  - injection H as <- <- <- <-. split; [apply acts_as_refl | reflexivity].
  - injection H as <- <- <- <-. split; [apply acts_as_refl | congruence].
  - injection H as <- <- <- <-. split; [apply acts_as_refl | reflexivity].
  - match type of H with
    | context [Close ?s w] =>
        pose proof (acts_as_Close source s w) as A; destruct (Close s w) as [[ce cs] cw]
    end.
    cbn [snd] in A. injection H as <- <- <- <-. split; [exact A | reflexivity].
Qed.

Lemma acts_as_In (source : EventSource) (w w' : World) (a : attempt) :
  acts_as source w w' -> In a (script w') -> In a (script w).
Proof.
  intros [_ [_ [_ [used [S _]]]]] H. rewrite S. apply in_or_app. now right.
Qed.

(** The loop of [Next], from a source that is not closed: what it does to
    the outside, the last event id it leaves, and the errors it can return
    with the state they leave. *)
Lemma Next_loop_acts (fuel : nat) : forall source w event err source' w',
  closed source = false ->
  Next_loop fuel source w = Some ((event, err), source', w') ->
  acts_as source w w'
  /\ lastEventID source'
     = match err with None => ID event | Some _ => lastEventID source end
  /\ match err with
     | None => True
     | Some e =>
         event = Event0
         /\ currentReadCloser source' = None
         /\ ((e = ErrReadFromClosedSource /\ closed source' = true)
             \/ (e = io io_EOF /\ closed source' = true)
             \/ (exists res,
                   e = BadResponseError res
                   /\ In (Responds res) (script w)
                   /\ StatusCode res <> StatusOK
                   /\ retryable (StatusCode res) = false
                   /\ closed source' = false))
     end.
Proof.
  induction fuel as [|fuel IH]; intros source w event err source' w' Hc H; [discriminate|].
  cbn [Next_loop] in H.
  destruct (Connect source w) as [[[e1 s1] w1]|] eqn:EC; [|discriminate].
  destruct (Connect_acts _ _ _ _ _ EC) as [A1 In1].
  destruct (Connect_steady _ _ _ _ _ EC) as [Hr [Hd Hl]].
  destruct e1 as [e1|].
  - injection H as <- <- <- <-.
    destruct (Connect_spec _ _ _ _ _ EC) as [_ [[D _]|[N [C _]]]]; [discriminate|].
    inversion C; subst.
    split; [exact A1|]. split; [reflexivity|]. split; [reflexivity|].
    split; [exact N|]. right. right. exists res. repeat split; auto.
  - assert (Hc1 : closed s1 = false).
    { destruct (Connect_spec _ _ _ _ _ EC) as [_ [[_ [-> _]]|[_ [C _]]]]; [exact Hc|].
      now inversion C. }
    destruct (currentReadCloser s1) as [rc|]; [|discriminate].
    destruct (read rc s1 w1) as [[[ev er] s2] w2] eqn:ER.
    destruct (read_steady _ _ _ _ _ _ _ ER) as [Rr [Rd [Rl _]]].
    destruct (read_acts _ _ _ _ _ _ _ ER) as [A2 _].
    pose proof (read_closed _ _ _ _ _ _ _ Hc1 ER) as Rc.
    assert (A12 : acts_as source w w2).
    { apply (acts_as_trans _ _ _ _ A1). now apply (acts_as_same _ s1). }
    destruct er as [[|msg]|].
    + pose proof (Close_spec s2 w2) as [C1 _].
      pose proof (acts_as_Close source s2 w2) as A3.
      destruct (Close s2 w2) as [[ce cs] cw]. cbn [fst snd] in *.
      injection H as <- <- <- <-. subst cs. cbn [lastEventID closed currentReadCloser].
      split; [now apply (acts_as_trans _ _ _ _ A12)|].
      split; [congruence|]. split; [reflexivity|]. split; [reflexivity|].
      right. left. now split.
    + destruct (closed s2) eqn:Ec2.
      * injection H as <- <- <- <-.
        destruct Rc as [[Rc _]|[_ [Rc _]]]; [congruence|].
        split; [exact A12|]. split; [congruence|]. split; [reflexivity|].
        split; [exact Rc|]. left. now split.
      * apply IH in H; [|exact Ec2].
        destruct H as [A' [L' E']].
        cbn [set_currentReadCloser lastEventID] in L'.
        assert (A : acts_as source w w').
        { apply (acts_as_trans _ _ _ _ A12).
          apply (acts_as_trans _ _ (waitForRetry (set_currentReadCloser None s2) w2)).
          - apply (acts_as_same _ (set_currentReadCloser None s2));
              [cbn; congruence | cbn; congruence | cbn; congruence | apply acts_as_wait].
          - apply (acts_as_same _ (set_currentReadCloser None s2));
              [cbn; congruence | cbn; congruence | cbn; congruence | exact A']. }
        split; [exact A|]. split; [destruct err; congruence|].
        destruct err as [e|]; [|exact I].
        destruct E' as [E0 [N' [E'|[E'|[res [Eq [In' Rest]]]]]]];
          (split; [exact E0|]); (split; [exact N'|]); [now left | now right; left |].
        right. right. exists res. split; [exact Eq|]. split; [|exact Rest].
        apply (acts_as_In source w w2 _ A12).
        now rewrite waitForRetry_script in In'.
    + injection H as <- <- <- <-. split; [exact A12|]. split; [|exact I].
      now destruct (Z.eqb (Retry ev) 0).
Qed.

End SessionMore.

Section SessionCalls.

Import Session.

(** X9.  [Close] leaves the source closed and without a stream, its
    intervals and last event id untouched, even when closing the stream
    fails; the error it returns is that of closing the stream.  A second
    [Close] returns no error and does nothing, to the source or outside. *)
Theorem Close_releases_and_is_idempotent (source : EventSource) (w : World) :
  snd (fst (Close source w))
  = mkSource (DefaultRetryInterval source) None
                     (lastEventID source) (retryInterval source) true
  /\ fst (fst (Close source w))
     = match currentReadCloser source with
       | Some rc => option_map io (closeErr rc)
       | None => None
       end
  /\ Close (snd (fst (Close source w))) (snd (Close source w))
     = (None, snd (fst (Close source w)), snd (Close source w)).
Proof.
  unfold Close. cbn [set_closed currentReadCloser].
  destruct (currentReadCloser source) as [rc|]; [destruct (closeErr rc)|];
    repeat split.
Qed.


(** X10.  Whatever the call, the source does nothing to the outside but
    send requests whose [Last-Event-ID] header is the last event id it had
    when the call began, close bodies, and sleep its interval; it sends one
    request for each answer of the client it uses up.  Its last event id
    changes when [Next] returns an event, to the id of that event, and
    never otherwise: not on an error, not in [Connect], not in [Close]. *)
Theorem calls_send_last_event_id
        (c : call) (source : EventSource) (w : World)
        (res : Event * option error) (source' : EventSource) (w' : World) :
  perform c source w = Some (res, source', w') ->
  (exists extra,
     trace w' = (trace w ++ extra)%list
     /\ Forall (fun a => a = Do (lastEventID source) \/ a = BodyClose
                         \/ a = Sleep (backoff (retryInterval source)
                                               (DefaultRetryInterval source))) extra
     /\ exists used,
         script w = (used ++ script w')%list
         /\ List.length used = List.length (requests extra))
  /\ lastEventID source' = List.last (map ID (returned_event c res)) (lastEventID source).
Proof.
  intros H. change (exists extra, _) with (acts_as source w w').
  destruct c; cbn [perform] in H.
  - destruct (Connect source w) as [[[e1 s1] w1]|] eqn:EC; [|discriminate].
    injection H as <- <- <-.
    destruct (Connect_acts _ _ _ _ _ EC) as [A _].
    destruct (Connect_steady _ _ _ _ _ EC) as [_ [_ L]]. now split.
  - unfold Next in H. destruct (closed source) eqn:Hc.
    + injection H as <- <- <-. split; [apply acts_as_refl | reflexivity].
    + destruct res as [event err].
      destruct (Next_loop_acts _ _ _ _ _ _ _ Hc H) as [A [L _]].
      split; [exact A|]. now destruct err.
  - pose proof (Close_spec source w) as [C1 _].
    pose proof (acts_as_Close source source w) as A.
    destruct (Close source w) as [[ce cs] cw]. cbn [fst snd] in *.
    injection H as <- <- <-. subst cs. now split.
Qed.

(** The reader breaks after the event "2"; the next [Next] asks again with
    that id, twice. *)
Lemma calls_send_last_event_id_witness :
  perform CallNext
          (mkSource 100 (Some (mkReadCloser [Failed (io_failure "reset")] None)) "2" 0 false)
          (mkWorld [Unreachable;
                    Responds (mkResponse 200
                                (mkReadCloser [Dispatched (mkEvent "3" "" [] 0)] None))] [])
  = Some ((mkEvent "3" "" [] 0, None),
          mkSource 100 (Some (mkReadCloser [] None)) "3" 0 false,
          mkWorld [] [Sleep 100; Do "2"; Sleep 100; Do "2"])
  /\ (exists extra,
        [Sleep 100; Do "2"; Sleep 100; Do "2"] = ([] ++ extra)%list
        /\ Forall (fun a => a = Do "2" \/ a = BodyClose \/ a = Sleep (backoff 0 100)) extra
        /\ exists used,
            [Unreachable;
             Responds (mkResponse 200
                         (mkReadCloser [Dispatched (mkEvent "3" "" [] 0)] None))]
            = (used ++ [])%list
            /\ List.length used = List.length (requests extra))
  /\ "3" = List.last (map ID (returned_event CallNext (mkEvent "3" "" [] 0, None))) "2".
Proof.
  split; [reflexivity|].
  apply (calls_send_last_event_id
           CallNext
           (mkSource 100 (Some (mkReadCloser [Failed (io_failure "reset")] None)) "2" 0 false)
           (mkWorld [Unreachable;
                     Responds (mkResponse 200
                                 (mkReadCloser [Dispatched (mkEvent "3" "" [] 0)] None))] [])
           (mkEvent "3" "" [] 0, None)
           (mkSource 100 (Some (mkReadCloser [] None)) "3" 0 false)
           (mkWorld [] [Sleep 100; Do "2"; Sleep 100; Do "2"])).
  reflexivity.
Defined.

(** X11.  [Next] returns three errors and no other, always with [Event{}],
    the last event id unchanged, and, when it has gone through its loop, no
    stream held: the closed-source error, with the source closed; [io.EOF],
    with the source closed; a [BadResponseError] whose response is an
    answer of the client with a status that is neither 200 nor one of the
    four retried, with the source not closed, so that a later [Next]
    connects again.  An error of the client or of a read is never
    returned. *)
Theorem Next_errors
        (source : EventSource) (w : World) (ev : Event) (e : error)
        (source' : EventSource) (w' : World) :
  Next source w = Some ((ev, Some e), source', w') ->
  ev = Event0
  /\ lastEventID source' = lastEventID source
  /\ ((e = ErrReadFromClosedSource /\ closed source' = true)
      \/ (e = io io_EOF /\ closed source' = true /\ currentReadCloser source' = None)
      \/ (exists res,
            e = BadResponseError res
            /\ In (Responds res) (script w)
            /\ StatusCode res <> StatusOK
            /\ retryable (StatusCode res) = false
            /\ closed source' = false
            /\ currentReadCloser source' = None)).
Proof.
  intros H. unfold Next in H. destruct (closed source) eqn:Hc.
  - injection H as <- <- <- <-. repeat split. left. now split.
  - destruct (Next_loop_acts _ _ _ _ _ _ _ Hc H) as [_ [L [E0 [N E]]]].
    split; [exact E0|]. split; [exact L|].
    destruct E as [E|[[E1 E2]|[res [E1 [E2 [E3 [E4 E5]]]]]]].
    + now left.
    + right. left. now repeat split.
    + right. right. exists res. now repeat split.
Qed.

Lemma Next_errors_witness :
  Next (mkSource 100 (Some (mkReadCloser [Failed (io_failure "reset")] None)) "2" 0 false)
       (mkWorld [Responds (mkResponse 503 (mkReadCloser [] None));
                 Responds (mkResponse 404 (mkReadCloser [] None))] [])
  = Some ((Event0, Some (BadResponseError (mkResponse 404 (mkReadCloser [] None)))),
          mkSource 100 None "2" 0 false,
          mkWorld [] [Sleep 100; Do "2"; BodyClose; Sleep 100; Do "2"; BodyClose])
  /\ exists res,
      BadResponseError (mkResponse 404 (mkReadCloser [] None)) = BadResponseError res
      /\ StatusCode res <> StatusOK
      /\ retryable (StatusCode res) = false.
Proof.
  split; [reflexivity|].
  destruct (Next_errors
              (mkSource 100 (Some (mkReadCloser [Failed (io_failure "reset")] None))
                        "2" 0 false)
              (mkWorld [Responds (mkResponse 503 (mkReadCloser [] None));
                        Responds (mkResponse 404 (mkReadCloser [] None))] [])
              Event0 (BadResponseError (mkResponse 404 (mkReadCloser [] None)))
              (mkSource 100 None "2" 0 false)
              (mkWorld [] [Sleep 100; Do "2"; BodyClose; Sleep 100; Do "2"; BodyClose])
              eq_refl) as [_ [_ [[E _]|[[E _]|[res [E1 [_ [E3 [E4 _]]]]]]]]];
    [discriminate | discriminate |].
  exists res. now repeat split.
Defined.

End SessionCalls.

(** ** The event source: retrying and reading on *)

Section SessionRetries.

Import Session.

Lemma retryable_not_OK (status : Z) :
  retryable status = true -> Z.eqb status StatusOK = false.
Proof.
  unfold retryable, StatusOK. intros H.
  destruct (Z.eqb_spec status 200) as [->|]; [discriminate | reflexivity].
Qed.

(** The loop of [Connect] over answers after which it tries again. *)
Lemma Connect_loop_retries (pre : list attempt) (source : EventSource) :
  forall done rest,
  forallb retry_answer pre = true ->
  Connect_loop (pre ++ rest) source done
  = Connect_loop rest source (done ++ flat_map (retry_actions source) pre).
Proof.
  induction pre as [|a pre IH]; intros done rest H.
  - cbn. now rewrite app_nil_r.
  - cbn [forallb] in H. apply andb_true_iff in H as [Ha Hpre].
    cbn [app Connect_loop flat_map].
    destruct a as [|res]; cbn [retry_answer retry_actions] in *.
    + rewrite waitForRetry_backoff. unfold act. cbn [script trace].
      rewrite (IH _ _ Hpre). now rewrite <- !app_assoc.
    + rewrite (retryable_not_OK _ Ha).
      change (Z.eqb (StatusCode res) StatusInternalServerError
              || Z.eqb (StatusCode res) StatusBadGateway
              || Z.eqb (StatusCode res) StatusServiceUnavailable
              || Z.eqb (StatusCode res) StatusGatewayTimeout)%bool
        with (retryable (StatusCode res)).
      rewrite Ha, waitForRetry_backoff. unfold act. cbn [script trace].
      rewrite (IH _ _ Hpre). now rewrite <- !app_assoc.
Qed.

Lemma Connect_retries_then_OK
      (source : EventSource) (pre : list attempt) (res : Response)
      (rest : list attempt) (t : list action) :
  currentReadCloser source = None ->
  forallb retry_answer pre = true ->
  StatusCode res = StatusOK ->
  Connect source (mkWorld (pre ++ Responds res :: rest) t)
  = Some (None,
          mkSource (DefaultRetryInterval source) (Some (NewReadCloser (Body res)))
                   (lastEventID source) (retryInterval source) false,
          mkWorld rest (t ++ flat_map (retry_actions source) pre
                          ++ [Do (lastEventID source)])).
Proof.
  intros Hs Hpre Hok. unfold Connect. rewrite Hs. cbn [script trace].
  rewrite (Connect_loop_retries _ _ _ _ Hpre). cbn [Connect_loop].
  rewrite Hok. cbn [Z.eqb StatusOK Pos.eqb]. unfold act. cbn [script trace].
  now rewrite <- app_assoc.
Qed.

(** One call of [Next] on a stream that has an event ready. *)
Lemma Next_ready (source : EventSource) (w : World) (rc : ReadCloser)
      (ev : Event) (later : list reading) :
  closed source = false ->
  currentReadCloser source = Some rc ->
  readings rc = Dispatched ev :: later ->
  Next source w
  = Some ((ev, None),
          mkSource (DefaultRetryInterval source) (Some (mkReadCloser later (closeErr rc)))
                   (ID ev) (directive_after [ev] (retryInterval source)) false,
          w).
Proof.
  intros Hc Hs Hr. unfold Next. rewrite Hc. cbn [Next_loop]. unfold Connect.
  rewrite Hs. cbn iota. rewrite Hs. unfold read. rewrite Hr.
  cbn [directive_after fold_left].
  destruct (Z.eqb (Retry ev) 0);
    unfold set_retryInterval, set_lastEventID, set_currentReadCloser;
    cbn [negb DefaultRetryInterval currentReadCloser lastEventID retryInterval closed];
    now rewrite Hc.
Qed.

(** One turn of the loop of [Next] on a stream whose read fails. *)
Lemma Next_loop_failed_read (fuel : nat) (source : EventSource) (w : World)
      (rc : ReadCloser) (msg : string) (broken : list reading) :
  closed source = false ->
  currentReadCloser source = Some rc ->
  readings rc = Failed (io_failure msg) :: broken ->
  Next_loop (S fuel) source w
  = Next_loop fuel
              (mkSource (DefaultRetryInterval source) None (lastEventID source)
                        (retryInterval source) false)
              (mkWorld (script w)
                       (trace w ++ [Sleep (backoff (retryInterval source)
                                                   (DefaultRetryInterval source))])).
Proof.
  intros Hc Hs Hb. cbn [Next_loop]. unfold Connect. rewrite Hs. cbn iota. rewrite Hs.
  unfold read. rewrite Hb. cbv beta iota zeta.
  change (closed (set_currentReadCloser ?x source)) with (closed source).
  rewrite Hc, waitForRetry_backoff.
  unfold set_currentReadCloser, act.
  cbn [DefaultRetryInterval currentReadCloser lastEventID retryInterval closed].
  now rewrite Hc.
Qed.

End SessionRetries.

Section SessionReading.

Import Session.

(** X12.  While the client fails or answers with one of the four retried
    statuses, [Connect] does not return, and neither does [Next]: with a
    script made of such answers only, and no stream held, they are still
    retrying when the script ends. *)
Theorem Connect_never_gives_up (source : EventSource) (w : World) :
  currentReadCloser source = None ->
  forallb retry_answer (script w) = true ->
  Connect source w = None
  /\ (closed source = false -> Next source w = None).
Proof.
  intros Hs H.
  assert (C : Connect source w = None).
  { unfold Connect. rewrite Hs.
    rewrite <- (app_nil_r (script w)), (Connect_loop_retries _ _ _ _ H). reflexivity. }
  split; [exact C|].
  intros Hc. unfold Next. rewrite Hc. cbn [Next_loop]. now rewrite C.
Qed.

Lemma Connect_never_gives_up_witness :
  currentReadCloser (new_source 100) = None
  /\ forallb retry_answer
             (script (mkWorld [Unreachable; Responds (mkResponse 500 (mkReadCloser [] None));
                               Responds (mkResponse 504 (mkReadCloser [] None))] []))
     = true
  /\ Connect (new_source 100)
             (mkWorld [Unreachable; Responds (mkResponse 500 (mkReadCloser [] None));
                       Responds (mkResponse 504 (mkReadCloser [] None))] []) = None
  /\ (closed (new_source 100) = false ->
      Next (new_source 100)
           (mkWorld [Unreachable; Responds (mkResponse 500 (mkReadCloser [] None));
                     Responds (mkResponse 504 (mkReadCloser [] None))] []) = None).
Proof.
  split; [reflexivity|]. split; [reflexivity|].
  apply (Connect_never_gives_up
           (new_source 100)
           (mkWorld [Unreachable; Responds (mkResponse 500 (mkReadCloser [] None));
                     Responds (mkResponse 504 (mkReadCloser [] None))] [])
           eq_refl eq_refl).
Defined.

(** X13.  With no stream held, [Next] goes through any number of failures
    of the client and of answers with a retried status, sending a request
    and sleeping its interval for each, and returns the first event of the
    first stream it is given with status 200; no error of the way is
    returned.  The source then holds that stream, has the id of the event
    as last event id, and its retry directive, if any, in force. *)
Theorem Next_reconnects
        (source : EventSource) (pre : list attempt) (res : Response)
        (rest : list attempt) (t : list action) (ev : Event) (later : list reading) :
  closed source = false ->
  currentReadCloser source = None ->
  forallb retry_answer pre = true ->
  StatusCode res = StatusOK ->
  readings (Body res) = Dispatched ev :: later ->
  Next source (mkWorld (pre ++ Responds res :: rest) t)
  = Some ((ev, None),
          mkSource (DefaultRetryInterval source)
                   (Some (mkReadCloser later (closeErr (Body res))))
                   (ID ev) (directive_after [ev] (retryInterval source)) false,
          mkWorld rest (t ++ flat_map (retry_actions source) pre
                          ++ [Do (lastEventID source)])).
Proof.
  intros Hc Hs Hpre Hok Hr. unfold Next. rewrite Hc. cbn [Next_loop].
  rewrite (Connect_retries_then_OK _ _ _ _ _ Hs Hpre Hok).
  cbn [currentReadCloser]. unfold read, NewReadCloser. rewrite Hr.
  cbn [directive_after fold_left].
  destruct (Z.eqb (Retry ev) 0); reflexivity.
Qed.

(** The scenario of the tests "when the server returns 500" and the like. *)
Lemma Next_reconnects_witness :
  Next (new_source 100)
       (mkWorld ([Responds (mkResponse 503 (mkReadCloser [] None)); Unreachable]
                 ++ Responds (mkResponse 200
                                (mkReadCloser [Dispatched (mkEvent "1" "" (bytes "you made it!") 0)]
                                              None)) :: [])
                [])
  = Some ((mkEvent "1" "" (bytes "you made it!") 0, None),
          mkSource 100 (Some (mkReadCloser [] None)) "1" 0 false,
          mkWorld [] [Do ""; BodyClose; Sleep 100; Do ""; Sleep 100; Do ""]).
Proof.
  apply (Next_reconnects
           (new_source 100) [Responds (mkResponse 503 (mkReadCloser [] None)); Unreachable]
           (mkResponse 200 (mkReadCloser [Dispatched (mkEvent "1" "" (bytes "you made it!") 0)]
                                         None))
           [] [] (mkEvent "1" "" (bytes "you made it!") 0) []
           eq_refl eq_refl eq_refl eq_refl eq_refl).
Defined.

(** X14.  The events that the stream held has ready are returned by as many
    calls of [Next], in order, with no request sent, no sleep and no answer
    of the client used.  The source ends with the id of the last of them as
    last event id and the last retry directive among them in force. *)
Theorem Next_delivers_in_order
        (evs : list Event) (source : EventSource) (w : World)
        (later : list reading) (ce : option io_error) :
  closed source = false ->
  currentReadCloser source = Some (mkReadCloser (map Dispatched evs ++ later) ce) ->
  perform_all (repeat CallNext (List.length evs)) source w
  = Some (map (fun ev => (ev, None)) evs,
          mkSource (DefaultRetryInterval source) (Some (mkReadCloser later ce))
                   (List.last (map ID evs) (lastEventID source))
                   (directive_after evs (retryInterval source)) false,
          w).
Proof.
  revert source. induction evs as [|ev evs IH]; intros source Hc Hs.
  - cbn. cbn in Hs. rewrite <- Hs, <- Hc. now destruct source.
  - cbn [List.length repeat perform_all perform].
    rewrite (Next_ready source w _ ev (map Dispatched evs ++ later) Hc Hs eq_refl).
    cbn [closeErr]. rewrite IH by reflexivity.
    cbn [DefaultRetryInterval lastEventID retryInterval map].
    now rewrite (last_cons_default (map ID evs) (ID ev) (lastEventID source)).
Qed.

Lemma Next_delivers_in_order_witness :
  perform_all (repeat CallNext 2)
    (mkSource 100 (Some (mkReadCloser (map Dispatched [mkEvent "1" "" [] 0;
                                                       mkEvent "2" "" [] 200] ++ []) None))
              "" 0 false)
    (mkWorld [Unreachable] [])
  = Some ([(mkEvent "1" "" [] 0, None); (mkEvent "2" "" [] 200, None)],
          mkSource 100 (Some (mkReadCloser [] None)) "2" 200 false,
          mkWorld [Unreachable] []).
Proof.
  apply (Next_delivers_in_order
           [mkEvent "1" "" [] 0; mkEvent "2" "" [] 200]
           (mkSource 100 (Some (mkReadCloser (map Dispatched [mkEvent "1" "" [] 0;
                                                              mkEvent "2" "" [] 200] ++ [])
                                             None)) "" 0 false)
           (mkWorld [Unreachable] []) [] None eq_refl eq_refl).
Defined.

(** X15.  When the read of the stream held fails, and not with [io.EOF],
    [Next] lets go of the stream without closing it, sleeps its interval,
    and connects again, sending the last event id it had: it returns the
    first event of the next stream it is given, and the failure of the
    read is not returned. *)
Theorem Next_resumes_after_failed_read
        (source : EventSource) (rc : ReadCloser) (msg : string) (broken : list reading)
        (pre : list attempt) (res : Response) (rest : list attempt) (t : list action)
        (ev : Event) (later : list reading) :
  closed source = false ->
  currentReadCloser source = Some rc ->
  readings rc = Failed (io_failure msg) :: broken ->
  forallb retry_answer pre = true ->
  StatusCode res = StatusOK ->
  readings (Body res) = Dispatched ev :: later ->
  Next source (mkWorld (pre ++ Responds res :: rest) t)
  = Some ((ev, None),
          mkSource (DefaultRetryInterval source)
                   (Some (mkReadCloser later (closeErr (Body res))))
                   (ID ev) (directive_after [ev] (retryInterval source)) false,
          mkWorld rest
                  (t ++ [Sleep (backoff (retryInterval source) (DefaultRetryInterval source))]
                     ++ flat_map (retry_actions source) pre
                     ++ [Do (lastEventID source)])).
Proof.
  intros Hc Hs Hb Hpre Hok Hr. unfold Next. rewrite Hc.
  cbn [script]. rewrite List.length_app. cbn [List.length].
  rewrite (Next_loop_failed_read _ _ _ _ _ _ Hc Hs Hb). cbn [script trace].
  replace (List.length pre + S (List.length rest))
    with (S (List.length pre + List.length rest)) by lia.
  cbn [Next_loop].
  rewrite (Connect_retries_then_OK
             (mkSource (DefaultRetryInterval source) None (lastEventID source)
                       (retryInterval source) false)
             pre res rest _ eq_refl Hpre Hok).
  cbn [currentReadCloser]. unfold read, NewReadCloser. rewrite Hr.
  cbn [directive_after fold_left DefaultRetryInterval lastEventID retryInterval].
  rewrite <- !app_assoc.
  assert (R : forall a, retry_actions
                          (mkSource (DefaultRetryInterval source) None (lastEventID source)
                                    (retryInterval source) false) a
                        = retry_actions source a) by (now intros [|r]).
  rewrite (flat_map_ext _ _ R).
  destruct (Z.eqb (Retry ev) 0); reflexivity.
Qed.

(** The scenario of the test "when the connection breaks after events are
    read": the stream breaks after the event "2", and the next stream is
    asked for with that id. *)
Lemma Next_resumes_after_failed_read_witness :
  Next (mkSource 100 (Some (mkReadCloser [Failed (io_failure "reset")] None)) "2" 0 false)
       (mkWorld ([] ++ Responds (mkResponse 200
                                   (mkReadCloser [Dispatched (mkEvent "3" "" (bytes "welcome back") 0)]
                                                 None)) :: [])
                [])
  = Some ((mkEvent "3" "" (bytes "welcome back") 0, None),
          mkSource 100 (Some (mkReadCloser [] None)) "3" 0 false,
          mkWorld [] [Sleep 100; Do "2"]).
Proof.
  apply (Next_resumes_after_failed_read
           (mkSource 100 (Some (mkReadCloser [Failed (io_failure "reset")] None)) "2" 0 false)
           (mkReadCloser [Failed (io_failure "reset")] None) "reset" []
           [] (mkResponse 200 (mkReadCloser [Dispatched (mkEvent "3" "" (bytes "welcome back") 0)]
                                            None))
           [] [] (mkEvent "3" "" (bytes "welcome back") 0) []
           eq_refl eq_refl eq_refl eq_refl eq_refl eq_refl).
Defined.

End SessionReading.

(** ** The reader does not look ahead *)

Section ReaderIncremental.

Lemma cut_more (s : string) (c : ascii) (more : string) : forall a b,
  cut s c = Some (a, b) -> cut (s ++ more) c = Some (a, b ++ more).
Proof.
  induction s as [|x s IH]; intros a b H; cbn [cut append] in *; [discriminate|].
  destruct (Ascii.eqb x c); [now injection H as <- <-|].
  destruct (cut s c) as [[a' b']|]; [|discriminate].
  injection H as <- <-. now rewrite (IH _ _ eq_refl).
Qed.

Lemma Next_loop_more (fuel : nat) : forall fuel' last s flt flt' more event idPresent ev reader',
  Next_loop fuel (mkReader last (mkBuf s flt)) event idPresent = Some ((ev, None), reader') ->
  String.length (s ++ more) < fuel' ->
  Next_loop fuel' (mkReader last (mkBuf (s ++ more) flt')) event idPresent
  = Some ((ev, None),
          mkReader (lastID reader') (mkBuf (pending (buf reader') ++ more) flt')).
Proof.
  induction fuel as [|fuel IH];
    intros fuel' last s flt flt' more event idPresent ev reader' H L; [discriminate|].
  destruct fuel' as [|fuel']; [lia|].
  rewrite Next_loop_S in H. rewrite Next_loop_S.
  unfold ReadString in *. cbn [buf pending fault lastID] in *.
  destruct (cut s LF) as [[before after]|] eqn:EC; [|discriminate].
  rewrite (cut_more _ _ more _ _ EC).
  pose proof (cut_shorter _ _ _ _ (cut_more _ _ more _ _ EC)) as Ls.
  cbn [buf lastID] in *.
  assert (R : forall ev' ip',
             Next_loop fuel (mkReader last (mkBuf after flt)) ev' ip'
             = Some ((ev, None), reader') ->
             Next_loop fuel' (mkReader last (mkBuf (after ++ more) flt')) ev' ip'
             = Some ((ev, None),
                     mkReader (lastID reader') (mkBuf (pending (buf reader') ++ more) flt'))).
  { intros ev' ip' H'. apply (IH _ _ _ _ _ _ _ _ _ _ H'). lia. }
  destruct (Nat.eqb (String.length _) 0).
  - destruct (Nat.eqb (List.length (Data event)) 0); [now apply R|].
    destruct idPresent; now injection H as <- <-.
  - destruct (at_is _ 0 ":"); [now apply R|].
    destruct (field_value _) as [field value].
    destruct (set_field field value event idPresent) as [ev' ip']. now apply R.
Qed.

End ReaderIncremental.

(** X16.  [Next] does not look past the blank line that ends an event: the
    event it returns from the bytes [s] it returns as well when more bytes
    follow [s], and whatever the source reports at its end; the bytes that
    it left unread in [s] are then unread still, with the new ones after
    them. *)
Theorem Next_does_not_look_ahead
        (last s : string) (flt flt' : io_error) (more : string)
        (ev : Event) (reader' : Reader) :
  Next (mkReader last (mkBuf s flt)) = Some ((ev, None), reader') ->
  Next (mkReader last (mkBuf (s ++ more) flt'))
  = Some ((ev, None),
          mkReader (lastID reader') (mkBuf (pending (buf reader') ++ more) flt')).
Proof.
  intros H. unfold Next in *. cbn [buf pending lastID] in *.
  apply (Next_loop_more _ _ _ _ _ _ _ _ _ _ _ H). lia.
Qed.

Lemma Next_does_not_look_ahead_witness :
  Next (mkReader "7" (mkBuf (wire ["data: a"; ""; "id: 9"]) io_EOF))
  = Some ((mkEvent "7" "" (bytes "a"), None), reading "7" (wire ["id: 9"]))
  /\ Next (mkReader "7" (mkBuf (wire ["data: a"; ""; "id: 9"] ++ "data: b")
                               (io_failure "reset")))
     = Some ((mkEvent "7" "" (bytes "a"), None),
             mkReader "7" (mkBuf (wire ["id: 9"] ++ "data: b") (io_failure "reset"))).
Proof.
  split; [reflexivity|].
  apply (Next_does_not_look_ahead
           "7" (wire ["data: a"; ""; "id: 9"]) io_EOF (io_failure "reset") "data: b"
           (mkEvent "7" "" (bytes "a")) (reading "7" (wire ["id: 9"])) eq_refl).
Defined.
